(** * visitercontrol: sliding-window visit counter

    A shallow embedding of [queueInt64.go] (the ring buffer
    [circleQueueInt64]) and of the controller [Visitercontrol]
    ([new], [AllowVisit], [add], [deleteExpiredOnce], [gc], [needGc]),
    followed by the properties of the specification.

    Conventions of the embedding.
    - Go's [int] and [int64] are modelled by [Z].  Every integer the
      code computes is a slice length, an index below a slice length, or
      a clock reading, so no operation of the model leaves the 64-bit
      range on a machine that can hold the slices.
    - A run-time panic is an explicit result, [Panics p]; a function that
      returns normally yields [Done v].
    - [time.Now()] is an argument [now] of every function that reads the
      clock; the sweep, which reads it once per buffer, takes one reading
      per key.
    - A key ([interface{}] in [AllowVisit]) is an integer, as
      [AllowVisitIP] passes it.
    - Window buffers are heap objects ([*circleQueueInt64]): the heap is a
      list of buffers, a pointer is a position in it.
    - The locks are not modelled: operations are run one after another. *)

From stdpp Require Import base numbers option list.

Local Open Scope Z_scope.

(** ** Go runtime *)

Inductive panic : Set :=
| config_panic                 (* the explicit [panic("...")] of [new] *)
| index_out_of_range
| integer_divide_by_zero
| makeslice_len_out_of_range
| nil_pointer_dereference.

Inductive outcome (A : Type) : Type :=
| Done (a : A)
| Panics (p : panic).

Arguments Done {A} a.
Arguments Panics {A} p.

Global Instance outcome_ret : MRet outcome := @Done.

Global Instance outcome_bind : MBind outcome :=
  λ A B f m, match m with Done a => f a | Panics p => Panics p end.

Global Instance panic_eq_dec : EqDecision panic.
Proof. solve_decision. Defined.

(** [a % b] on Go integers: truncated remainder, panics on [b = 0]. *)
Definition go_rem (a b : Z) : outcome Z :=
  if decide (b = 0) then Panics integer_divide_by_zero else Done (Z.rem a b).

(** [make([]T, n)], every element being the zero value [z]. *)
Definition go_make {A} (n : Z) (z : A) : outcome (list A) :=
  if decide (0 ≤ n) then Done (replicate (Z.to_nat n) z)
  else Panics makeslice_len_out_of_range.

(** [s[i]] as an expression. *)
Definition go_index {A} (s : list A) (i : Z) : outcome A :=
  if decide (0 ≤ i) then
    match s !! Z.to_nat i with
    | Some x => Done x
    | None => Panics index_out_of_range
    end
  else Panics index_out_of_range.

(** [s[i] = x]. *)
Definition go_assign {A} (s : list A) (i : Z) (x : A) : outcome (list A) :=
  if decide (0 ≤ i < Z.of_nat (length s)) then Done (<[Z.to_nat i := x]> s)
  else Panics index_out_of_range.

(** [len(s)]. *)
Definition len {A} (s : list A) : Z := Z.of_nat (length s).

(** The two values of type [error] that the package creates; [None] is
    Go's [nil] error. *)
Inductive errorString : Set :=
| queue_is_full
| queue_is_empty.

Global Instance errorString_eq_dec : EqDecision errorString.
Proof. solve_decision. Defined.

Abbreviation error := (option errorString).

(** ** The ring buffer [circleQueueInt64] *)

Record circleQueueInt64 : Set := mkQueue {
  maxSize : Z;        (* one more than the usable length *)
  slice : list Z;
  head : Z;
  tail : Z
}.

Global Instance circleQueueInt64_eq_dec : EqDecision circleQueueInt64.
Proof. solve_decision. Defined.

Definition newCircleQueueInt64 (size : Z) : outcome circleQueueInt64 :=
  let maxSize := size + 1 in
  s ← go_make maxSize 0;
  Done (mkQueue maxSize s 0 0).

Definition IsFull (this : circleQueueInt64) : outcome bool :=
  r ← go_rem (tail this + 1) (maxSize this);
  Done (bool_decide (r = head this)).

Definition IsEmpty (this : circleQueueInt64) : bool :=
  bool_decide (tail this = head this).

Definition UsedSize (this : circleQueueInt64) : outcome Z :=
  go_rem (tail this + maxSize this - head this) (maxSize this).

Definition UnUsedSize (this : circleQueueInt64) : outcome Z :=
  u ← UsedSize this;
  Done (maxSize this - 1 - u).

Definition Len (this : circleQueueInt64) : Z := maxSize this - 1.

(** [Push] mutates the receiver: the model returns the receiver after the
    call together with the error. *)
Definition Push (this : circleQueueInt64) (val : Z)
  : outcome (circleQueueInt64 * error) :=
  full ← IsFull this;
  if full : bool then Done (this, Some queue_is_full)
  else
    s ← go_assign (slice this) (tail this) val;
    t ← go_rem (tail this + 1) (maxSize this);
    Done (mkQueue (maxSize this) s (head this) t, None).

Definition Pop (this : circleQueueInt64)
  : outcome (circleQueueInt64 * Z * error) :=
  if IsEmpty this then Done (this, 0, Some queue_is_empty)
  else
    val ← go_index (slice this) (head this);
    h ← go_rem (head this + 1) (maxSize this);
    Done (mkQueue (maxSize this) (slice this) h (tail this), val, None).

(** The body of [for i := 0; i < size; i++]: [n] is the number of
    iterations still to run. *)
Fixpoint DeleteExpired_loop (n : nat) (now temphead : Z)
    (this : circleQueueInt64) : outcome circleQueueInt64 :=
  match n with
  | O => Done this
  | S n' =>
      e ← go_index (slice this) temphead;
      if bool_decide (now > e) then
        '(this', _, _) ← Pop this;
        temphead' ← go_rem (temphead + 1) (maxSize this');
        DeleteExpired_loop n' now temphead' this'
      else Done this
  end.

Definition DeleteExpired (now : Z) (this : circleQueueInt64)
  : outcome circleQueueInt64 :=
  size ← UsedSize this;
  if bool_decide (size = 0) then Done this
  else DeleteExpired_loop (Z.to_nat size) now (head this) this.

(** Modelled from the spec: [Size()] is called by [deleteExpiredOnce] on a
    buffer but is not among the methods of [circleQueueInt64] in the
    source; the specification reads the test as "the buffer becomes
    empty", the number of stored events being [UsedSize()]. *)
Definition Size (this : circleQueueInt64) : outcome Z := UsedSize this.

(** ** Containers used by the controller *)

(** Sequential composition of a loop body over the elements a [range]
    clause (or [Range] method) yields, in the order it yields them. *)
Fixpoint for_each {A S} (body : S → A → outcome S) (l : list A) (s : S)
  : outcome S :=
  match l with
  | [] => Done s
  | a :: l' => s' ← body s a; for_each body l' s'
  end.

(** [sync.Map] with integer keys and values.  The entries are kept in a
    list without repeated keys; the order of the list is the order in
    which [Range] visits them (Go leaves that order unspecified). *)
Abbreviation syncMap := (list (Z * Z)).

Fixpoint Load (m : syncMap) (key : Z) : option Z :=
  match m with
  | [] => None
  | (k, v) :: m' => if decide (k = key) then Some v else Load m' key
  end.

Fixpoint Store (m : syncMap) (key value : Z) : syncMap :=
  match m with
  | [] => [(key, value)]
  | (k, v) :: m' =>
      if decide (k = key) then (k, value) :: m' else (k, v) :: Store m' key value
  end.

Definition Delete (m : syncMap) (key : Z) : syncMap :=
  filter (λ kv, fst kv ≠ key) m.

(** [hashset.SetInt] of the package [github.com/yudeguang/hashset]: a set
    of integers held in the map [Items].  The list has no repeated
    element; its order is the order in which [range Items] yields the
    elements (unspecified in Go). *)
Abbreviation SetInt := (list Z).

Definition NewInt : SetInt := [].

Definition Add (s : SetInt) (i : Z) : SetInt :=
  if decide (i ∈ s) then s else s ++ [i].

Definition Remove (s : SetInt) (i : Z) : SetInt :=
  filter (λ j, j ≠ i) s.

Definition Clear (s : SetInt) : SetInt := [].

(** ** Heap of window buffers *)

Inductive pointer : Set :=
| null
| addr (a : nat).

Global Instance pointer_eq_dec : EqDecision pointer.
Proof. solve_decision. Defined.

Global Instance addr_inj : Inj (=) (=) addr.
Proof. by intros a b [= ->]. Qed.

Abbreviation heap := (list circleQueueInt64).

Definition deref (h : heap) (p : pointer) : outcome circleQueueInt64 :=
  match p with
  | null => Panics nil_pointer_dereference
  | addr a =>
      match h !! a with
      | Some q => Done q
      | None => Panics nil_pointer_dereference
      end
  end.

(** The receiver of a pointer method after the call. *)
Definition write (h : heap) (p : pointer) (q : circleQueueInt64) : heap :=
  match p with
  | null => h
  | addr a => <[a := q]> h
  end.

(** [p.Push(val)] *)
Definition Push_at (h : heap) (p : pointer) (val : Z) : outcome (heap * error) :=
  q ← deref h p;
  '(q', err) ← Push q val;
  Done (write h p q', err).

(** [p.DeleteExpired()] *)
Definition DeleteExpired_at (h : heap) (p : pointer) (now : Z) : outcome heap :=
  q ← deref h p;
  q' ← DeleteExpired now q;
  Done (write h p q').

(** [p.Size()] *)
Definition Size_at (h : heap) (p : pointer) : outcome Z :=
  q ← deref h p;
  Size q.

(** ** The controller [Visitercontrol] *)

Record Visitercontrol : Set := mkVisitercontrol {
  defaultExpiration : Z;
  cleanupInterval : Z;
  maxVisitsNum : Z;
  indexes : syncMap;
  maximumNumberOfOnlineUsers : Z;
  visitorRecords : list pointer;
  notUsedVisitorRecordsIndex : SetInt
}.

Record state : Set := mkState {
  store : heap;
  vc : Visitercontrol
}.

Definition with_indexes (this : Visitercontrol) (m : syncMap) : Visitercontrol :=
  mkVisitercontrol (defaultExpiration this) (cleanupInterval this)
    (maxVisitsNum this) m (maximumNumberOfOnlineUsers this)
    (visitorRecords this) (notUsedVisitorRecordsIndex this).

Definition with_visitorRecords (this : Visitercontrol) (r : list pointer)
  : Visitercontrol :=
  mkVisitercontrol (defaultExpiration this) (cleanupInterval this)
    (maxVisitsNum this) (indexes this) (maximumNumberOfOnlineUsers this)
    r (notUsedVisitorRecordsIndex this).

Definition with_notUsed (this : Visitercontrol) (s : SetInt) : Visitercontrol :=
  mkVisitercontrol (defaultExpiration this) (cleanupInterval this)
    (maxVisitsNum this) (indexes this) (maximumNumberOfOnlineUsers this)
    (visitorRecords this) s.

(** One iteration of [for i := range l.visitorRecords] in [new]. *)
Definition new_body (maxVisitsNum : Z) (s : heap * list pointer * SetInt) (i : Z)
  : outcome (heap * list pointer * SetInt) :=
  let '(h, records, notUsed) := s in
  q ← newCircleQueueInt64 maxVisitsNum;
  records' ← go_assign records i (addr (length h));
  Done (h ++ [q], records', Add notUsed i).

Definition new (defaultExpiration cleanupInterval : Z)
    (maxVisitsNum maximumNumberOfOnlineUsers : Z) : outcome state :=
  if bool_decide (cleanupInterval > defaultExpiration) then Panics config_panic
  else
    records ← go_make maximumNumberOfOnlineUsers null;
    '(h, records', notUsed) ←
      for_each (new_body maxVisitsNum) (seqZ 0 (len records))
        ([], records, NewInt);
    Done (mkState h
            (mkVisitercontrol defaultExpiration cleanupInterval maxVisitsNum
               [] maximumNumberOfOnlineUsers records' notUsed)).

(** [add].  [now] is the reading of [time.Now()], which each path takes
    once.  For a key that is not in the index, the loop
    [for index := range Items { ...; break }] runs its body once, on the
    first element the iteration yields. *)
Definition add (key now : Z) (st : state) : outcome (state * error) :=
  let this := vc st in
  let stamp := now + defaultExpiration this in
  match Load (indexes this) key with
  | Some index =>
      p ← go_index (visitorRecords this) index;
      '(h, err) ← Push_at (store st) p stamp;
      Done (mkState h this, err)
  | None =>
      match notUsedVisitorRecordsIndex this with
      | index :: _ =>
          p ← go_index (visitorRecords this) index;
          '(h, _) ← Push_at (store st) p stamp;
          let notUsed := Remove (notUsedVisitorRecordsIndex this) index in
          let this' := with_notUsed this notUsed in
          Done (mkState h (with_indexes this' (Store (indexes this') key index)),
                None)
      | [] =>
          queue ← newCircleQueueInt64 (maxVisitsNum this);
          '(queue', _) ← Push queue stamp;
          let records := visitorRecords this ++ [addr (length (store st))] in
          let this' := with_visitorRecords this records in
          Done (mkState (store st ++ [queue'])
                  (with_indexes this'
                     (Store (indexes this') key (len records - 1))),
                None)
      end
  end.

Definition AllowVisit (key now : Z) (st : state) : outcome (state * bool) :=
  '(st', err) ← add key now st;
  Done (st', bool_decide (err = None)).

(** The callback that [deleteExpiredOnce] passes to [Range].  Each call of
    [DeleteExpired] reads the clock: [now k] is the reading when the entry
    of key [k] is visited. *)
Definition deleteExpiredOnce_body (now : Z → Z) (st : state) (kv : Z * Z)
  : outcome state :=
  let this := vc st in
  let '(k, index) := kv in
  if bool_decide (index < len (visitorRecords this) ∧ index >= 0) then
    p ← go_index (visitorRecords this) index;
    h ← DeleteExpired_at (store st) p (now k);
    p' ← go_index (visitorRecords this) index;
    sz ← Size_at h p';
    if bool_decide (sz = 0) then
      let this' := with_indexes this (Delete (indexes this) k) in
      Done (mkState h
              (with_notUsed this' (Add (notUsedVisitorRecordsIndex this') index)))
    else Done (mkState h this)
  else Done (mkState (store st) (with_indexes this (Delete (indexes this) k))).

Definition deleteExpiredOnce (now : Z → Z) (st : state) : outcome state :=
  for_each (deleteExpiredOnce_body now) (indexes (vc st)) st.

Definition needGc (this : Visitercontrol) : bool :=
  let curLen := len (visitorRecords this) in
  let unUsedLen := len (notUsedVisitorRecordsIndex this) in
  let usedLen := curLen - unUsedLen in
  if bool_decide (curLen < 2 * maximumNumberOfOnlineUsers this) then false
  else if bool_decide (usedLen * 2 < unUsedLen) then true
  else false.

(** One iteration of [for i := range visitorRecordsNew] in [gc]. *)
Definition gc_fill_body (maxVisitsNum : Z) (s : heap * list pointer) (i : Z)
  : outcome (heap * list pointer) :=
  let '(h, records) := s in
  q ← newCircleQueueInt64 maxVisitsNum;
  records' ← go_assign records i (addr (length h));
  Done (h ++ [q], records').

(** The callback that [gc] passes to [Range]. *)
Definition gc_move_body (old : list pointer) (s : list pointer * Z) (kv : Z * Z)
  : outcome (list pointer * Z) :=
  let '(visitorRecordsNew, indexNew) := s in
  let indexOld := snd kv in
  p ← go_index old indexOld;
  records' ← go_assign visitorRecordsNew indexNew p;
  Done (records', indexNew + 1).

(** One iteration of the last loop of [gc]. *)
Definition gc_free_body (indexNew : Z) (s : SetInt) (i : Z) : SetInt :=
  if bool_decide (i >= indexNew) then Add s i else s.

(** The value [gc] gives to [newLen]. *)
Definition gc_newLen (this : Visitercontrol) : Z :=
  let curLen := len (visitorRecords this) in
  let unUsedLen := len (notUsedVisitorRecordsIndex this) in
  let usedLen := curLen - unUsedLen in
  if bool_decide (usedLen < maximumNumberOfOnlineUsers this)
  then maximumNumberOfOnlineUsers this
  else usedLen * 2.

Definition gc (st : state) : outcome state :=
  let this := vc st in
  if needGc this then
    let newLen := gc_newLen this in
    visitorRecordsNew ← go_make newLen null;
    '(h, visitorRecordsNew) ←
      for_each (gc_fill_body (maxVisitsNum this))
        (seqZ 0 (len visitorRecordsNew)) (store st, visitorRecordsNew);
    let notUsed := Clear (notUsedVisitorRecordsIndex this) in
    '(visitorRecordsNew, indexNew) ←
      for_each (gc_move_body (visitorRecords this)) (indexes this)
        (visitorRecordsNew, 0);
    let this' := with_visitorRecords this visitorRecordsNew in
    let notUsed' :=
      foldl (gc_free_body indexNew) notUsed
        (seqZ 0 (len (visitorRecords this'))) in
    Done (mkState h (with_notUsed this' notUsed'))
  else Done st.

(** ** Runs of the controller *)

(** Go does not fix the order in which [Range] and [range Items] visit
    their entries, and the order may change from one iteration to the
    next: between two calls the entries of [indexes] and of [Items] may
    be rearranged into [m] and [s]. *)
Definition reorder (m : syncMap) (s : SetInt) (st : state) : state :=
  let this := vc st in
  if decide (m ≡ₚ indexes this ∧ s ≡ₚ notUsedVisitorRecordsIndex this)
  then mkState (store st) (with_notUsed (with_indexes this m) s)
  else st.

(** The calls in the order in which they take effect: [AllowVisit] by the
    callers, [deleteExpiredOnce] and then [gc] by the loop of
    [deleteExpired] at every tick. *)
Inductive op : Set :=
| OpAllowVisit (key now : Z)
| OpDeleteExpiredOnce (now : Z → Z)
| OpGc
| OpReorder (m : syncMap) (s : SetInt).

Definition run_op (st : state) (o : op) : outcome state :=
  match o with
  | OpAllowVisit key now => '(st', _) ← AllowVisit key now st; Done st'
  | OpDeleteExpiredOnce now => deleteExpiredOnce now st
  | OpGc => gc st
  | OpReorder m s => Done (reorder m s st)
  end.

Definition run (ops : list op) (st : state) : outcome state :=
  for_each run_op ops st.

(** ** The entry points around [AllowVisit] and the sweep *)

(** A Go [string]: a sequence of bytes. *)
Abbreviation go_string := (list Byte.byte).


(** The body of [for range time.Tick(this.cleanupInterval)] in
    [deleteExpired], with the loop variable [finished]; [now] gives the
    clock readings of the sweep that this tick starts. *)
Definition deleteExpired_body (s : bool * state) (now : Z → Z)
  : outcome (bool * state) :=
  let '(finished, st) := s in
  if finished : bool then
    st1 ← deleteExpiredOnce now st;
    st2 ← gc st1;
    Done (true, st2)
  else Done (finished, st).

(** [deleteExpired] up to the ticks received so far, one element of
    [ticks] for each; the loop itself never ends. *)
Definition deleteExpired (ticks : list (Z → Z)) (st : state)
  : outcome (bool * state) :=
  for_each deleteExpired_body ticks (true, st).

(** ** Notions used to state the properties *)

(** Representation invariant of a buffer built by [newCircleQueueInt64 n]. *)
Definition wf (n : Z) (q : circleQueueInt64) : Prop :=
  maxSize q = n + 1 ∧ len (slice q) = n + 1 ∧
  0 ≤ head q < n + 1 ∧ 0 ≤ tail q < n + 1.

(** The value [UsedSize] computes when it does not panic. *)
Definition stored (q : circleQueueInt64) : Z :=
  Z.rem (tail q + maxSize q - head q) (maxSize q).

(** The events a buffer holds, oldest first: [n] cells read from
    position [i] on, wrapping at [m]. *)
Fixpoint read (s : list Z) (m : Z) (n : nat) (i : Z) : list Z :=
  match n with
  | O => []
  | S n' => default 0 (s !! Z.to_nat i) :: read s m n' (Z.rem (i + 1) m)
  end.

Definition entries (q : circleQueueInt64) : list Z :=
  read (slice q) (maxSize q) (Z.to_nat (stored q)) (head q).

(** The buffers that can be built from [newCircleQueueInt64 n] with the
    mutating methods. *)
Inductive reachable_queue (n : Z) : circleQueueInt64 → Prop :=
| reach_new q :
    newCircleQueueInt64 n = Done q → reachable_queue n q
| reach_Push q val q' err :
    reachable_queue n q → Push q val = Done (q', err) → reachable_queue n q'
| reach_Pop q q' val err :
    reachable_queue n q → Pop q = Done (q', val, err) → reachable_queue n q'
| reach_DeleteExpired q now q' :
    reachable_queue n q → DeleteExpired now q = Done q' → reachable_queue n q'.

(** The receiver after a [Push] that finds room. *)
Definition pushed (q : circleQueueInt64) (val : Z) : circleQueueInt64 :=
  mkQueue (maxSize q) (<[Z.to_nat (tail q) := val]> (slice q)) (head q)
    (if decide (tail q + 1 < maxSize q) then tail q + 1 else 0).

(** The receiver after a [Pop] that finds an event. *)
Definition popped (q : circleQueueInt64) : circleQueueInt64 :=
  mkQueue (maxSize q) (slice q)
    (if decide (head q + 1 < maxSize q) then head q + 1 else 0) (tail q).

(** What [DeleteExpired] leaves of the events [l]: the events from the
    first one that [now] does not exceed. *)
Fixpoint drop_expired (now : Z) (l : list Z) : list Z :=
  match l with
  | [] => []
  | e :: l' => if bool_decide (now > e) then drop_expired now l' else l
  end.

(** The reading of the specification: events are dropped while their
    expiration is at most [now]. *)
Fixpoint drop_while_le (now : Z) (l : list Z) : list Z :=
  match l with
  | [] => []
  | e :: l' => if bool_decide (e ≤ now) then drop_while_le now l' else l
  end.

(** [Push] called once for each value of [vals], in order, with the errors
    returned. *)
Fixpoint Push_all (q : circleQueueInt64) (vals : list Z)
  : outcome (circleQueueInt64 * list error) :=
  match vals with
  | [] => Done (q, [])
  | val :: vals' =>
      '(q', err) ← Push q val;
      '(q'', errs) ← Push_all q' vals';
      Done (q'', err :: errs)
  end.

(** The buffer [newCircleQueueInt64 size] returns. *)
Definition fresh_queue (size : Z) : circleQueueInt64 :=
  mkQueue (size + 1) (replicate (Z.to_nat (size + 1)) 0) 0 0.

(** The state [new] returns: one new buffer per slot, every slot free. *)
Definition new_state (defaultExpiration cleanupInterval : Z)
    (maxVisitsNum maximumNumberOfOnlineUsers : Z) : state :=
  mkState
    (replicate (Z.to_nat maximumNumberOfOnlineUsers) (fresh_queue maxVisitsNum))
    (mkVisitercontrol defaultExpiration cleanupInterval maxVisitsNum []
       maximumNumberOfOnlineUsers
       (addr <$> seq 0 (Z.to_nat maximumNumberOfOnlineUsers))
       (seqZ 0 maximumNumberOfOnlineUsers)).

(** The pointers that the [Range] callback of [gc] reads from the old
    slots, in the order in which the entries are visited. *)
Definition moved_pointers (old : list pointer) (m : syncMap) : list pointer :=
  (λ kv : Z * Z, default null (old !! Z.to_nat (snd kv))) <$> m.

(** The state a rebuilding [gc] returns: the buffers of the keys at the
    front of the new slots, new buffers behind them, the trailing slots
    free, and [indexes] as it was. *)
Definition gc_state (st : state) : state :=
  let this := vc st in
  let newLen := Z.to_nat (gc_newLen this) in
  let indexNew := length (indexes this) in
  mkState
    (store st ++ replicate newLen (fresh_queue (maxVisitsNum this)))
    (mkVisitercontrol (defaultExpiration this) (cleanupInterval this)
       (maxVisitsNum this) (indexes this) (maximumNumberOfOnlineUsers this)
       (moved_pointers (visitorRecords this) (indexes this)
        ++ (addr <$> seq (length (store st) + indexNew) (newLen - indexNew)))
       (seqZ (Z.of_nat indexNew) (Z.of_nat (newLen - indexNew)))).

(** The partition of the slots between the keys and the free set. *)
Definition slot_partition (this : Visitercontrol) : Prop :=
  (∀ k i, (k, i) ∈ indexes this →
          0 ≤ i < len (visitorRecords this) ∧
          i ∉ notUsedVisitorRecordsIndex this) ∧
  (∀ i, i ∈ notUsedVisitorRecordsIndex this →
        0 ≤ i < len (visitorRecords this) ∧
        ∀ k, (k, i) ∉ indexes this) ∧
  (∀ i, 0 ≤ i < len (visitorRecords this) →
        i ∈ notUsedVisitorRecordsIndex this ∨ ∃ k, (k, i) ∈ indexes this).

(** Every free slot holds an empty buffer. *)
Definition free_slots_empty (st : state) : Prop :=
  ∀ i, i ∈ notUsedVisitorRecordsIndex (vc st) →
       ∃ p q, go_index (visitorRecords (vc st)) i = Done p ∧
              deref (store st) p = Done q ∧ UsedSize q = Done 0.

(** A run of the controller from its construction. *)
Definition run_from_new (defaultExpiration cleanupInterval : Z)
    (maxVisitsNum maximumNumberOfOnlineUsers : Z) (ops : list op)
  : outcome state :=
  st ← new defaultExpiration cleanupInterval maxVisitsNum
         maximumNumberOfOnlineUsers;
  run ops st.

(** Four keys visit once with expected concurrency 1, key 4 five
    time units after the others; the sweep at instant 12 then finds the
    events of keys 1, 2 and 3 expired. *)
Definition one_survivor : list op :=
  [OpAllowVisit 1 0; OpAllowVisit 2 0; OpAllowVisit 3 0; OpAllowVisit 4 5;
   OpDeleteExpiredOnce (λ _, 12)].

(** Four keys visit once with expected concurrency 1, and key 2 a second
    time five time units later; the sweep at instant 12 leaves key 2
    alone, in slot 1. *)
Definition survivor_in_slot_1 : list op :=
  [OpAllowVisit 1 0; OpAllowVisit 2 0; OpAllowVisit 3 0; OpAllowVisit 4 0;
   OpAllowVisit 2 5; OpDeleteExpiredOnce (λ _, 12)].

(** Seven keys visit once with expected concurrency 3, keys 1 and 2 a
    second time; the sweep at instant 12 leaves keys 1 and 2. *)
Definition two_survivors : list op :=
  [OpAllowVisit 1 0; OpAllowVisit 2 0; OpAllowVisit 3 0; OpAllowVisit 4 0;
   OpAllowVisit 5 0; OpAllowVisit 6 0; OpAllowVisit 7 0;
   OpAllowVisit 1 5; OpAllowVisit 2 5; OpDeleteExpiredOnce (λ _, 12)].

(** The state [two_survivors] leads to. *)
Definition two_survivors_state : state :=
  mkState
    [mkQueue 3 [10; 15; 0] 1 2; mkQueue 3 [10; 15; 0] 1 2;
     mkQueue 3 [10; 0; 0] 1 1; mkQueue 3 [10; 0; 0] 1 1;
     mkQueue 3 [10; 0; 0] 1 1; mkQueue 3 [10; 0; 0] 1 1;
     mkQueue 3 [10; 0; 0] 1 1]
    (mkVisitercontrol 10 1 2 [(1, 0); (2, 1)] 3
       [addr 0; addr 1; addr 2; addr 3; addr 4; addr 5; addr 6]
       [2; 3; 4; 5; 6]).

(** The state of the controller between calls, as [new] builds it and as
    [AllowVisit] and [deleteExpiredOnce] keep it: the slots are
    partitioned between the keys and the free set, no slot has two
    owners, every slot points to a buffer of its own, of capacity
    [maxVisitsNum], and the buffers of the free slots are empty. *)
Record consistent (st : state) : Prop := mkConsistent {
  limit_nonneg : 0 ≤ maxVisitsNum (vc st);
  keys_NoDup : NoDup (fst <$> indexes (vc st));
  values_NoDup : NoDup (snd <$> indexes (vc st));
  free_NoDup : NoDup (notUsedVisitorRecordsIndex (vc st));
  slots_partition : slot_partition (vc st);
  slots_NoDup : NoDup (visitorRecords (vc st));
  slots_buffers :
    ∀ p, p ∈ visitorRecords (vc st) →
         ∃ q, deref (store st) p = Done q ∧ wf (maxVisitsNum (vc st)) q;
  free_empty : free_slots_empty st
}.

(** [gc] is called and finds the pool in need of compaction. *)
Definition rebuilds (st : state) (o : op) : Prop :=
  o = OpGc ∧ needGc (vc st) = true.

(** A run in which no call of [gc] rebuilds the pool. *)
Fixpoint quiet (ops : list op) (st : state) : Prop :=
  match ops with
  | [] => True
  | o :: ops' =>
      ¬ rebuilds st o ∧ ∀ st', run_op st o = Done st' → quiet ops' st'
  end.

(** [AllowVisit] called for [key] once for each clock reading of [nows],
    with the answers. *)
Fixpoint AllowVisit_each (key : Z) (nows : list Z) (st : state)
  : outcome (state * list bool) :=
  match nows with
  | [] => Done (st, [])
  | now :: nows' =>
      '(st1, allowed) ← AllowVisit key now st;
      '(st2, answers) ← AllowVisit_each key nows' st1;
      Done (st2, allowed :: answers)
  end.

(** [key] is in the index and its buffer holds at least [u] events. *)
Definition key_holds (key u : Z) (st : state) : Prop :=
  ∃ index p q,
    Load (indexes (vc st)) key = Some index ∧
    go_index (visitorRecords (vc st)) index = Done p ∧
    deref (store st) p = Done q ∧
    u ≤ stored q.

(** Unfolds the two invariants and reads the fields of a state that is
    given by its constructors. *)
Ltac simpl_state :=
  unfold slot_partition, free_slots_empty;
  cbn [store vc with_indexes with_notUsed with_visitorRecords indexes
         maxVisitsNum visitorRecords notUsedVisitorRecordsIndex
         defaultExpiration cleanupInterval maximumNumberOfOnlineUsers].

(** ** Notions used to state the properties of the remaining code *)

(** [Pop] called [k] times, with the values and errors returned. *)
Fixpoint Pop_all (q : circleQueueInt64) (k : nat)
  : outcome (circleQueueInt64 * list (Z * error)) :=
  match k with
  | O => Done (q, [])
  | S k' =>
      '(q', val, err) ← Pop q;
      '(q'', vals) ← Pop_all q' k';
      Done (q'', (val, err) :: vals)
  end.

(** Events in the order of their expiration, earliest first. *)
Fixpoint ascending (l : list Z) : Prop :=
  match l with
  | [] => True
  | e :: l' => Forall (λ e', e ≤ e') l' ∧ ascending l'
  end.

Global Instance ascending_dec (l : list Z) : Decision (ascending l).
Proof. induction l as [|e l IH]; cbn [ascending]; apply _. Defined.

(** What the controller knows of a key: nothing, the events of its
    buffer (oldest first), or an index that leads to no buffer. *)
Inductive visitor : Set :=
| Unknown
| Known (events : list Z)
| Dangling.

Global Instance visitor_eq_dec : EqDecision visitor.
Proof. solve_decision. Defined.

Definition visitor_of (key : Z) (st : state) : visitor :=
  match Load (indexes (vc st)) key with
  | None => Unknown
  | Some index =>
      match go_index (visitorRecords (vc st)) index ≫= deref (store st) with
      | Done q => Known (entries q)
      | Panics _ => Dangling
      end
  end.


(** What a sweep that reads the clock at [now] leaves of a visitor: the
    events from the first one that [now] does not exceed, and nothing at
    all when no event is left. *)
Definition swept (now : Z) (v : visitor) : visitor :=
  match v with
  | Known l =>
      match drop_expired now l with
      | [] => Unknown
      | e :: l' => Known (e :: l')
      end
  | Unknown => Unknown
  | Dangling => Dangling
  end.

(** Every slot points to a buffer of capacity [maxVisitsNum]; nothing is
    asked of [indexes] and of the free set. *)
Definition pool_valid (st : state) : Prop :=
  0 ≤ maxVisitsNum (vc st) ∧
  Forall (λ p, match deref (store st) p with
               | Done q => wf (maxVisitsNum (vc st)) q
               | Panics _ => False
               end)
    (visitorRecords (vc st)).

Global Instance wf_dec (n : Z) (q : circleQueueInt64) : Decision (wf n q).
Proof. unfold wf. apply _. Defined.

Global Instance pool_valid_dec (st : state) : Decision (pool_valid st).
Proof.
  unfold pool_valid. apply and_dec; [apply _|]. apply Forall_dec.
  intros p. destruct (deref (store st) p); apply _.
Defined.

(** The calls that [deleteExpired] makes for the ticks [ticks]. *)
Definition tick_ops (ticks : list (Z → Z)) : list op :=
  ticks ≫= λ now, [OpDeleteExpiredOnce now; OpGc].

(** The settings given to [new], which no call changes. *)
Definition same_settings (st st' : state) : Prop :=
  defaultExpiration (vc st') = defaultExpiration (vc st) ∧
  cleanupInterval (vc st') = cleanupInterval (vc st) ∧
  maxVisitsNum (vc st') = maxVisitsNum (vc st) ∧
  maximumNumberOfOnlineUsers (vc st') = maximumNumberOfOnlineUsers (vc st).

(** Keys 7 and 8 visit once, at the instants 0 and 3, a controller built
    with window 10, limit 2 and three slots. *)
Definition two_visitors : list op := [OpAllowVisit 7 0; OpAllowVisit 8 3].

(** The state [two_visitors] leads to. *)
Definition two_visitors_state : state :=
  mkState
    [mkQueue 3 [10; 0; 0] 0 1; mkQueue 3 [13; 0; 0] 0 1;
     mkQueue 3 [0; 0; 0] 0 0]
    (mkVisitercontrol 10 1 2 [(7, 0); (8, 1)] 3 [addr 0; addr 1; addr 2] [2]).



(** [quiet], computed along the run. *)
Fixpoint quiet_check (ops : list op) (st : state) : bool :=
  match ops with
  | [] => true
  | o :: ops' =>
      match o with
      | OpGc => negb (needGc (vc st))
      | _ => true
      end
      && match run_op st o with
         | Done st' => quiet_check ops' st'
         | Panics _ => true
         end
  end.

(** The state that [one_survivor] followed by [gc] leads to, with window
    10, limit 3 and one expected user: key 4 is left with the index 3 in
    a pool of two slots. *)
Definition stale_index_state : state :=
  mkState
    [mkQueue 4 [10; 0; 0; 0] 1 1; mkQueue 4 [10; 0; 0; 0] 1 1;
     mkQueue 4 [10; 0; 0; 0] 1 1; mkQueue 4 [15; 0; 0; 0] 0 1;
     mkQueue 4 [0; 0; 0; 0] 0 0; mkQueue 4 [0; 0; 0; 0] 0 0]
    (mkVisitercontrol 10 1 3 [(4, 3)] 1 [addr 3; addr 5] [1]).

(** * Properties *)

(** ** Go's remainder on the operands the ring buffer gives it *)

Lemma rem_wrap (a m : Z) :
  0 < m → 0 ≤ a < 2 * m → Z.rem a m = if decide (a < m) then a else a - m.
Proof.
  intros Hm Ha. rewrite Z.rem_mod_nonneg by lia. case_decide.
  - apply Z.mod_small. lia.
  - symmetry. apply (Z.mod_unique_pos _ _ 1); lia.
Qed.

Lemma go_rem_wrap (a m : Z) :
  0 < m → 0 ≤ a < 2 * m →
  go_rem a m = Done (if decide (a < m) then a else a - m).
Proof.
  intros Hm Ha. unfold go_rem. rewrite decide_False by lia.
  by rewrite rem_wrap.
Qed.

(** ** The ring buffer *)

Section ring.
Variable n : Z.
Hypothesis n_nonneg : 0 ≤ n.

Lemma stored_cases q :
  wf n q →
  stored q = if decide (head q ≤ tail q) then tail q - head q
             else tail q + n + 1 - head q.
Proof.
  intros (Hm & _ & Hh & Ht). unfold stored. rewrite Hm.
  rewrite rem_wrap by lia. repeat case_decide; lia.
Qed.

Lemma stored_range q : wf n q → 0 ≤ stored q ≤ n.
Proof.
  intros Hwf. rewrite (stored_cases q Hwf).
  destruct Hwf as (_ & _ & ? & ?). case_decide; lia.
Qed.

Lemma UsedSize_wf q : wf n q → UsedSize q = Done (stored q).
Proof.
  intros (Hm & _). unfold UsedSize, stored, go_rem.
  by rewrite decide_False by lia.
Qed.

Lemma IsEmpty_wf q : wf n q → IsEmpty q = bool_decide (stored q = 0).
Proof.
  intros Hwf. unfold IsEmpty. rewrite (stored_cases q Hwf).
  destruct Hwf as (_ & _ & ? & ?).
  apply bool_decide_ext. case_decide; lia.
Qed.

Lemma IsFull_wf q : wf n q → IsFull q = Done (bool_decide (stored q = n)).
Proof.
  intros Hwf. unfold IsFull. rewrite (stored_cases q Hwf).
  destruct Hwf as (Hm & _ & ? & ?). rewrite Hm.
  rewrite go_rem_wrap by lia. simpl. f_equal.
  apply bool_decide_ext. repeat case_decide; lia.
Qed.

Lemma newCircleQueueInt64_wf :
  ∃ q, newCircleQueueInt64 n = Done q ∧ wf n q ∧ stored q = 0 ∧
       q = mkQueue (n + 1) (replicate (Z.to_nat (n + 1)) 0) 0 0.
Proof.
  eexists. unfold newCircleQueueInt64, go_make.
  rewrite decide_True by lia. simpl. split; [done|].
  split; [|split; [|done]].
  - unfold wf, len. simpl. rewrite length_replicate. lia.
  - unfold stored. simpl. rewrite rem_wrap by lia. case_decide; lia.
Qed.

Lemma Push_full q val :
  wf n q → stored q = n → Push q val = Done (q, Some queue_is_full).
Proof.
  intros Hwf Hfull. unfold Push. rewrite (IsFull_wf q Hwf). simpl.
  by rewrite bool_decide_true.
Qed.

Lemma Push_room q val :
  wf n q → stored q < n →
  Push q val = Done (pushed q val, None) ∧
  wf n (pushed q val) ∧ stored (pushed q val) = stored q + 1.
Proof.
  intros Hwf Hroom.
  assert (Hwf' : wf n (pushed q val)).
  { destruct Hwf as (Hm & Hl & ? & ?). unfold wf, pushed, len in *. simpl.
    rewrite length_insert. case_decide; lia. }
  split; [|split; [done|]].
  - unfold Push. rewrite (IsFull_wf q Hwf). simpl.
    rewrite bool_decide_false by lia.
    destruct Hwf as (Hm & Hl & ? & ?). unfold go_assign, len in *.
    rewrite decide_True by lia. simpl.
    rewrite Hm, go_rem_wrap by lia. simpl. unfold pushed. rewrite Hm.
    repeat case_decide; repeat f_equal; lia.
  - rewrite (stored_cases _ Hwf'). rewrite (stored_cases q Hwf) in *.
    destruct Hwf as (Hm & Hl & ? & ?). unfold pushed. simpl. rewrite Hm.
    repeat case_decide; lia.
Qed.

Lemma Pop_empty q :
  wf n q → stored q = 0 → Pop q = Done (q, 0, Some queue_is_empty).
Proof.
  intros Hwf He. unfold Pop. rewrite (IsEmpty_wf q Hwf).
  by rewrite bool_decide_true.
Qed.

Lemma Pop_some q :
  wf n q → 0 < stored q →
  Pop q = Done (popped q, default 0 (slice q !! Z.to_nat (head q)), None) ∧
  wf n (popped q) ∧ stored (popped q) = stored q - 1.
Proof.
  intros Hwf Hsome.
  assert (Hwf' : wf n (popped q)).
  { destruct Hwf as (Hm & Hl & ? & ?). unfold wf, popped in *. simpl.
    case_decide; lia. }
  split; [|split; [done|]].
  - unfold Pop. rewrite (IsEmpty_wf q Hwf). rewrite bool_decide_false by lia.
    destruct Hwf as (Hm & Hl & ? & ?). unfold go_index, len in *.
    rewrite decide_True by lia.
    destruct (lookup_lt_is_Some_2 (slice q) (Z.to_nat (head q))) as [e He];
      [lia|].
    rewrite He. simpl. rewrite Hm, go_rem_wrap by lia. simpl.
    unfold popped. rewrite Hm. repeat case_decide; repeat f_equal; lia.
  - rewrite (stored_cases _ Hwf'). rewrite (stored_cases q Hwf) in *.
    destruct Hwf as (Hm & Hl & ? & ?). unfold popped. simpl. rewrite Hm.
    repeat case_decide; lia.
Qed.

Lemma read_insert_snoc s k i t val :
  len s = n + 1 → 0 ≤ i < n + 1 → 0 ≤ t < n + 1 → Z.of_nat k < n + 1 →
  Z.rem (i + Z.of_nat k) (n + 1) = t →
  read (<[Z.to_nat t := val]> s) (n + 1) (S k) i = read s (n + 1) k i ++ [val].
Proof.
  intros Hl. revert i. induction k as [|k IH]; intros i Hi Ht Hk Hrem.
  - rewrite rem_wrap in Hrem by lia. case_decide; [|lia].
    assert (i = t) as -> by lia. cbn [read app].
    rewrite list_lookup_insert_eq by (unfold len in Hl; lia). done.
  - rewrite Nat2Z.inj_succ in Hk, Hrem.
    rewrite rem_wrap in Hrem by lia.
    assert (Hi' : 0 ≤ Z.rem (i + 1) (n + 1) < n + 1).
    { rewrite rem_wrap by lia. repeat case_decide; lia. }
    change (read (<[Z.to_nat t:=val]> s) (n + 1) (S (S k)) i)
      with (default 0 (<[Z.to_nat t:=val]> s !! Z.to_nat i)
            :: read (<[Z.to_nat t:=val]> s) (n + 1) (S k) (Z.rem (i + 1) (n + 1))).
    rewrite IH; [| done | done | lia |].
    + cbn [read app]. rewrite list_lookup_insert_ne; [done|].
      repeat case_decide; lia.
    + rewrite (rem_wrap (i + 1)) by lia.
      rewrite rem_wrap by (repeat case_decide; lia).
      repeat case_decide; lia.
Qed.

Lemma entries_pushed q val :
  wf n q → stored q < n → entries (pushed q val) = entries q ++ [val].
Proof.
  intros Hwf Hroom. unfold entries.
  destruct (Push_room q val Hwf Hroom) as (_ & _ & ->).
  pose proof (stored_range q Hwf) as Hr.
  pose proof (stored_cases q Hwf) as Hc.
  destruct Hwf as (Hm & Hl & Hh & Ht).
  replace (Z.to_nat (stored q + 1)) with (S (Z.to_nat (stored q))) by lia.
  unfold pushed. cbn [slice maxSize head]. rewrite Hm.
  apply read_insert_snoc; [done | done | done | lia |].
  rewrite Z2Nat.id by lia. rewrite Hc.
  rewrite rem_wrap by (case_decide; lia). repeat case_decide; lia.
Qed.

Lemma entries_popped q :
  wf n q → 0 < stored q →
  entries q = default 0 (slice q !! Z.to_nat (head q)) :: entries (popped q).
Proof.
  intros Hwf Hsome. unfold entries.
  destruct (Pop_some q Hwf Hsome) as (_ & _ & ->).
  destruct Hwf as (Hm & Hl & Hh & Ht).
  replace (Z.to_nat (stored q)) with (S (Z.to_nat (stored q - 1))) by lia.
  cbn [read]. unfold popped. cbn [slice maxSize head]. rewrite Hm.
  rewrite rem_wrap by lia. do 2 f_equal. case_decide; lia.
Qed.

Lemma entries_empty q : wf n q → stored q = 0 → entries q = [].
Proof. intros _ He. unfold entries. by rewrite He. Qed.

Lemma read_length s m k i : length (read s m k i) = k.
Proof. revert i. induction k as [|k IH]; intros i; cbn [read length]; auto. Qed.

Lemma entries_length q : wf n q → len (entries q) = stored q.
Proof.
  intros Hwf. pose proof (stored_range q Hwf) as Hr.
  unfold entries, len. rewrite read_length. lia.
Qed.

Lemma DeleteExpired_loop_spec now k q :
  wf n q → Z.of_nat k = stored q →
  ∃ q', DeleteExpired_loop k now (head q) q = Done q' ∧ wf n q' ∧
        slice q' = slice q ∧ tail q' = tail q ∧
        entries q' = drop_expired now (entries q).
Proof.
  revert q. induction k as [|k IH]; intros q Hwf Hk.
  - exists q. cbn [DeleteExpired_loop]. rewrite entries_empty by (done || lia).
    done.
  - assert (Hsome : 0 < stored q) by lia.
    destruct (Pop_some q Hwf Hsome) as (HPop & Hwf' & Hst').
    rewrite (entries_popped q Hwf Hsome).
    cbn [DeleteExpired_loop drop_expired].
    pose proof Hwf as Hwf0.
    destruct Hwf as (Hm & Hl & Hh & Ht). unfold go_index, len in *.
    rewrite decide_True by lia.
    destruct (lookup_lt_is_Some_2 (slice q) (Z.to_nat (head q))) as [e He];
      [lia|].
    rewrite He. cbn [mbind outcome_bind default from_option id].
    case_bool_decide as Hnow.
    + rewrite HPop. cbn [mbind outcome_bind].
      replace (maxSize (popped q)) with (n + 1) by (by rewrite <- Hm).
      rewrite go_rem_wrap by lia. cbn [mbind outcome_bind].
      destruct (IH (popped q) Hwf') as (q' & Hrun & ? & ? & ? & ?); [lia|].
      exists q'. split; [|done].
      rewrite <- Hrun. f_equal. unfold popped. cbn [head]. rewrite Hm.
      case_decide; lia.
    + exists q. rewrite (entries_popped q Hwf0 Hsome), He. done.
Qed.

Lemma DeleteExpired_spec now q :
  wf n q →
  ∃ q', DeleteExpired now q = Done q' ∧ wf n q' ∧
        slice q' = slice q ∧ tail q' = tail q ∧
        entries q' = drop_expired now (entries q).
Proof.
  intros Hwf. pose proof (stored_range q Hwf) as Hr.
  unfold DeleteExpired. rewrite (UsedSize_wf q Hwf). cbn [mbind outcome_bind].
  case_bool_decide as Hz.
  - exists q. by rewrite entries_empty.
  - apply DeleteExpired_loop_spec; [done | lia].
Qed.
End ring.

Lemma reachable_queue_wf (n : Z) (q : circleQueueInt64) :
  0 ≤ n → reachable_queue n q → wf n q.
Proof.
  intros Hn Hreach.
  induction Hreach as [q Hnew | q val q' err _ IH Hpush | q q' val err _ IH Hpop
                      | q now q' _ IH Hdel].
  - destruct (newCircleQueueInt64_wf n Hn) as (q0 & Hq0 & Hwf & _).
    congruence.
  - pose proof (stored_range n Hn q IH) as Hr.
    destruct (decide (stored q = n)) as [Hfull | Hroom].
    + rewrite (Push_full n Hn q val IH Hfull) in Hpush. congruence.
    + destruct (Push_room n Hn q val IH) as (Hrun & Hwf & _); [lia|].
      congruence.
  - pose proof (stored_range n Hn q IH) as Hr.
    destruct (decide (stored q = 0)) as [Hempty | Hsome].
    + rewrite (Pop_empty n Hn q IH Hempty) in Hpop. congruence.
    + destruct (Pop_some n Hn q IH) as (Hrun & Hwf & _); [lia|].
      congruence.
  - destruct (DeleteExpired_spec n Hn now q IH) as (q0 & Hrun & Hwf & _).
    congruence.
Qed.

(** C10.  A ring buffer built with size [n] and driven by [Push], [Pop]
    and [DeleteExpired] always has [0 ≤ UsedSize() ≤ n] with [head] and
    [tail] in [[0, n+1)]; [IsEmpty()] holds exactly when [UsedSize()] is
    [0], [IsFull()] exactly when it is [n]; no method panics; a [Push]
    that returns no error raises [UsedSize()] by one and a [Pop] that
    returns no error lowers it by one. *)
Theorem ring_buffer_invariant (n : Z) (q : circleQueueInt64) :
  0 ≤ n → reachable_queue n q →
  ∃ u, UsedSize q = Done u ∧ 0 ≤ u ≤ n ∧
       0 ≤ head q < n + 1 ∧ 0 ≤ tail q < n + 1 ∧
       (IsEmpty q = true ↔ u = 0) ∧
       (∃ b, IsFull q = Done b ∧ (b = true ↔ u = n)) ∧
       (∀ val, ∃ q' err, Push q val = Done (q', err) ∧
                         (err = None → UsedSize q' = Done (u + 1))) ∧
       (∃ q' val err, Pop q = Done (q', val, err) ∧
                      (err = None → UsedSize q' = Done (u - 1))).
Proof.
  intros Hn Hreach. pose proof (reachable_queue_wf n q Hn Hreach) as Hwf.
  pose proof (stored_range n Hn q Hwf) as Hr.
  exists (stored q). split; [by apply (UsedSize_wf n)|]. split; [done|].
  split; [apply Hwf|]. split; [apply Hwf|].
  split; [|split; [|split]].
  - rewrite (IsEmpty_wf n Hn q Hwf). apply bool_decide_eq_true.
  - eexists. split; [apply (IsFull_wf n Hn q Hwf)|].
    apply bool_decide_eq_true.
  - intros val. destruct (decide (stored q = n)) as [Hfull | Hroom].
    + exists q, (Some queue_is_full). split; [by apply (Push_full n)|done].
    + destruct (Push_room n Hn q val Hwf) as (Hrun & Hwf' & Hst); [lia|].
      exists (pushed q val), None. split; [done|]. intros _.
      rewrite (UsedSize_wf n Hn _ Hwf'). by rewrite Hst.
  - destruct (decide (stored q = 0)) as [Hempty | Hsome].
    + exists q, 0, (Some queue_is_empty). split; [by apply (Pop_empty n)|done].
    + destruct (Pop_some n Hn q Hwf) as (Hrun & Hwf' & Hst); [lia|].
      eexists _, _, None. split; [done|]. intros _.
      rewrite (UsedSize_wf n Hn _ Hwf'). by rewrite Hst.
Qed.

(** C10, an instance: the buffer of capacity 2 after one [Push]. *)
Lemma ring_buffer_invariant_witness :
  ∃ u, UsedSize (mkQueue 3 [10; 0; 0] 0 1) = Done u ∧ 0 ≤ u ≤ 2 ∧
       0 ≤ head (mkQueue 3 [10; 0; 0] 0 1) < 2 + 1 ∧
       0 ≤ tail (mkQueue 3 [10; 0; 0] 0 1) < 2 + 1 ∧
       (IsEmpty (mkQueue 3 [10; 0; 0] 0 1) = true ↔ u = 0) ∧
       (∃ b, IsFull (mkQueue 3 [10; 0; 0] 0 1) = Done b ∧ (b = true ↔ u = 2)) ∧
       (∀ val, ∃ q' err,
           Push (mkQueue 3 [10; 0; 0] 0 1) val = Done (q', err) ∧
           (err = None → UsedSize q' = Done (u + 1))) ∧
       (∃ q' val err,
           Pop (mkQueue 3 [10; 0; 0] 0 1) = Done (q', val, err) ∧
           (err = None → UsedSize q' = Done (u - 1))).
Proof.
  apply (ring_buffer_invariant 2); [lia|].
  eapply (reach_Push 2 (mkQueue 3 [0; 0; 0] 0 0) 10).
  - apply reach_new. reflexivity.
  - reflexivity.
Defined.

Lemma drop_expired_split (now : Z) (l : list Z) :
  ∃ gone, l = gone ++ drop_expired now l ∧ Forall (λ e, e < now) gone ∧
          match drop_expired now l with
          | [] => True
          | e :: _ => now ≤ e
          end.
Proof.
  induction l as [|e l (gone & Heq & Hgone & Hkept)]; cbn [drop_expired].
  - by exists [].
  - case_bool_decide as Hnow.
    + exists (e :: gone). split; [cbn [app]; congruence|].
      split; [constructor; [lia | done] | done].
    + exists []. split; [done|]. split; [constructor | lia].
Qed.

(** C4, as amended.  [DeleteExpired] with clock reading [now] removes the
    oldest event and repeats while the oldest event's expiration is
    strictly below [now]; it stops at the first event whose expiration is
    [now] or later (so an event that expires exactly at [now] is kept) and
    leaves that event and all later ones in place. *)
Theorem DeleteExpired_drops_strictly_expired
    (n now : Z) (q : circleQueueInt64) :
  0 ≤ n → reachable_queue n q →
  ∃ q' gone,
    DeleteExpired now q = Done q' ∧
    entries q = gone ++ entries q' ∧
    Forall (λ e, e < now) gone ∧
    match entries q' with
    | [] => True
    | e :: _ => now ≤ e
    end ∧
    entries q' = drop_expired now (entries q).
Proof.
  intros Hn Hreach. pose proof (reachable_queue_wf n q Hn Hreach) as Hwf.
  destruct (DeleteExpired_spec n Hn now q Hwf) as (q' & Hrun & _ & _ & _ & He).
  destruct (drop_expired_split now (entries q)) as (gone & Heq & Hgone & Hkept).
  exists q', gone. rewrite He. done.
Qed.

(** C4, the claim as written fails: a buffer holding one event that
    expires at instant 10 still holds it after [DeleteExpired] at instant
    10, while dropping events with expiration [≤ now] would empty it. *)
Lemma DeleteExpired_keeps_event_expiring_now :
  let q := mkQueue 2 [10; 0] 0 1 in
  reachable_queue 1 q ∧ entries q = [10] ∧
  DeleteExpired 10 q = Done q ∧
  drop_while_le 10 (entries q) = [] ∧
  entries q ≠ drop_while_le 10 (entries q).
Proof.
  cbn zeta. split; [|by vm_compute].
  eapply (reach_Push 1 (mkQueue 2 [0; 0] 0 0) 10).
  - by apply reach_new.
  - by vm_compute.
Qed.

(** C4, an instance: a buffer of capacity 2 holding the events 10 and 15,
    swept at instant 12. *)
Lemma DeleteExpired_drops_strictly_expired_witness :
  ∃ q' gone,
    DeleteExpired 12 (mkQueue 3 [10; 15; 0] 0 2) = Done q' ∧
    entries (mkQueue 3 [10; 15; 0] 0 2) = gone ++ entries q' ∧
    Forall (λ e, e < 12) gone ∧
    match entries q' with
    | [] => True
    | e :: _ => 12 ≤ e
    end ∧
    entries q' = drop_expired 12 (entries (mkQueue 3 [10; 15; 0] 0 2)).
Proof.
  apply (DeleteExpired_drops_strictly_expired 2 12); [lia|].
  eapply (reach_Push 2 (mkQueue 3 [10; 0; 0] 0 1) 15).
  - eapply (reach_Push 2 (mkQueue 3 [0; 0; 0] 0 0) 10).
    + apply reach_new. reflexivity.
    + reflexivity.
  - reflexivity.
Defined.

Lemma Push_all_errors (n : Z) (vals : list Z) (q : circleQueueInt64) :
  0 ≤ n → wf n q →
  ∃ q', Push_all q vals =
          Done (q', replicate (Z.to_nat (n - stored q) `min` length vals) None
                    ++ replicate (length vals - Z.to_nat (n - stored q))
                         (Some queue_is_full)) ∧
        wf n q'.
Proof.
  intros Hn. revert q. induction vals as [|val vals IH]; intros q Hwf.
  - exists q. cbn [Push_all length]. rewrite Nat.min_0_r. done.
  - pose proof (stored_range n Hn q Hwf) as Hr. cbn [Push_all length].
    destruct (decide (stored q = n)) as [Hfull | Hroom].
    + rewrite (Push_full n Hn q val Hwf Hfull). cbn [mbind outcome_bind].
      destruct (IH q Hwf) as (q' & -> & Hwf'). cbn [mbind outcome_bind].
      exists q'. split; [|done]. do 2 f_equal.
      replace (Z.to_nat (n - stored q)) with O by lia.
      cbn [Nat.min replicate app]. by rewrite Nat.sub_0_r.
    + destruct (Push_room n Hn q val Hwf) as (-> & Hwf' & Hst); [lia|].
      cbn [mbind outcome_bind].
      destruct (IH _ Hwf') as (q' & -> & Hwf''). cbn [mbind outcome_bind].
      exists q'. split; [|done]. do 2 f_equal. rewrite Hst.
      replace (Z.to_nat (n - stored q))
        with (S (Z.to_nat (n - (stored q + 1)))) by lia.
      done.
Qed.

(** ** The controller: one call of [AllowVisit] *)

Lemma write_deref_id (h : heap) (p : pointer) (q : circleQueueInt64) :
  deref h p = Done q → write h p q = h.
Proof.
  destruct p as [|a]; cbn [deref write]; [done|].
  destruct (h !! a) as [q0|] eqn:Ha; [|done].
  intros [= ->]. by apply list_insert_id.
Qed.

Lemma deref_write_same (h : heap) (p : pointer) (q q' : circleQueueInt64) :
  deref h p = Done q → deref (write h p q') p = Done q'.
Proof.
  destruct p as [|a]; cbn [deref write]; [done|].
  destruct (h !! a) as [q0|] eqn:Ha; [|done]. intros _.
  rewrite list_lookup_insert_eq; [done|]. by eapply lookup_lt_Some.
Qed.

(** A key that is in the index: [add] is the [Push] on its buffer. *)
Lemma add_known (key now : Z) (st : state) (index : Z) (p : pointer)
    (q : circleQueueInt64) :
  Load (indexes (vc st)) key = Some index →
  go_index (visitorRecords (vc st)) index = Done p →
  deref (store st) p = Done q →
  add key now st =
    '(q', err) ← Push q (now + defaultExpiration (vc st));
    Done (mkState (write (store st) p q') (vc st), err).
Proof.
  intros HLoad Hindex Hderef. unfold add, Push_at.
  rewrite HLoad, Hindex. cbn [mbind outcome_bind]. rewrite Hderef.
  cbn [mbind outcome_bind].
  destruct (Push q (now + defaultExpiration (vc st))) as [[q' err]|]; done.
Qed.

(** A key that is not in the index: [add] returns [nil] whenever it
    returns, whatever [Push] returned. *)
Lemma add_unknown (key now : Z) (st st' : state) (err : error) :
  Load (indexes (vc st)) key = None →
  add key now st = Done (st', err) → err = None.
Proof.
  intros HLoad. unfold add, Push_at. rewrite HLoad.
  destruct (notUsedVisitorRecordsIndex (vc st)) as [|index free].
  - destruct (newCircleQueueInt64 _) as [queue|]; cbn [mbind outcome_bind];
      [|done].
    destruct (Push queue _) as [[queue' e]|]; cbn [mbind outcome_bind];
      [|done].
    by intros [= _ <-].
  - destruct (go_index _ index) as [p|]; cbn [mbind outcome_bind]; [|done].
    destruct (deref _ p) as [q|]; cbn [mbind outcome_bind]; [|done].
    destruct (Push q _) as [[q' e]|]; cbn [mbind outcome_bind]; [|done].
    by intros [= _ <-].
Qed.

(** For a key that is in the index, [AllowVisit] reports exactly whether
    the [Push] on the key's buffer succeeded. *)
Lemma AllowVisit_known_iff_Push (key now : Z) (st : state) (index : Z)
    (p : pointer) (q : circleQueueInt64) :
  Load (indexes (vc st)) key = Some index →
  go_index (visitorRecords (vc st)) index = Done p →
  deref (store st) p = Done q →
  ∀ q' err, Push q (now + defaultExpiration (vc st)) = Done (q', err) →
    AllowVisit key now st =
      Done (mkState (write (store st) p q') (vc st), bool_decide (err = None)).
Proof.
  intros HLoad Hindex Hderef q' err HPush. unfold AllowVisit.
  rewrite (add_known key now st index p q) by done. by rewrite HPush.
Qed.

(** C7.  A denied call of [AllowVisit] changes nothing: the call is
    denied only for a key that is in the index and whose [Push] failed
    with "queue is full", and the whole state after the call, in
    particular the key's buffer, its [UsedSize()] and its events, is the
    state before the call. *)
Theorem AllowVisit_denied_no_effect (key now : Z) (st st' : state) :
  AllowVisit key now st = Done (st', false) →
  st' = st ∧
  ∃ index p q,
    Load (indexes (vc st)) key = Some index ∧
    go_index (visitorRecords (vc st)) index = Done p ∧
    deref (store st) p = Done q ∧
    Push q (now + defaultExpiration (vc st)) = Done (q, Some queue_is_full) ∧
    deref (store st') p = Done q ∧
    (∀ q', deref (store st') p = Done q' →
           UsedSize q' = UsedSize q ∧ entries q' = entries q).
Proof.
  unfold AllowVisit. intros Hrun.
  destruct (add key now st) as [[st1 err]|] eqn:Hadd; [|done].
  cbn [mbind outcome_bind] in Hrun.
  injection Hrun as -> Herr. apply bool_decide_eq_false in Herr.
  destruct (Load (indexes (vc st)) key) as [index|] eqn:HLoad;
    [|by rewrite (add_unknown key now st st' err HLoad Hadd) in Herr].
  destruct (go_index (visitorRecords (vc st)) index) as [p|] eqn:Hindex;
    [|by unfold add in Hadd; rewrite HLoad, Hindex in Hadd].
  destruct (deref (store st) p) as [q|] eqn:Hderef;
    [|by unfold add, Push_at in Hadd;
         rewrite HLoad, Hindex in Hadd; cbn [mbind outcome_bind] in Hadd;
         rewrite Hderef in Hadd].
  rewrite (add_known key now st index p q) in Hadd by done.
  destruct (Push q _) as [[q' e]|] eqn:HPush; [|done].
  cbn [mbind outcome_bind] in Hadd. injection Hadd as <- <-.
  assert (q' = q ∧ e = Some queue_is_full) as [-> ->].
  { unfold Push in HPush.
    destruct (IsFull q) as [[]|]; cbn [mbind outcome_bind] in HPush.
    - by injection HPush as <- <-.
    - destruct (go_assign _ _ _); cbn [mbind outcome_bind] in HPush; [|done].
      destruct (go_rem _ _); cbn [mbind outcome_bind] in HPush; [|done].
      by injection HPush as _ <-.
    - done. }
  rewrite (write_deref_id _ _ _ Hderef). destruct st as [h this].
  split; [done|]. exists index, p, q. cbn [store vc] in *.
  do 5 (split; [done|]). intros q1 Hq1.
  assert (q1 = q) as -> by congruence. done.
Qed.

(** C7, an instance: limit 1, key 7 holds one event and calls again. *)
Lemma AllowVisit_denied_no_effect_witness :
  let st := mkState [mkQueue 2 [10; 0] 0 1]
              (mkVisitercontrol 10 1 1 [(7, 0)] 1 [addr 0] []) in
  st = st ∧
  ∃ index p q,
    Load (indexes (vc st)) 7 = Some index ∧
    go_index (visitorRecords (vc st)) index = Done p ∧
    deref (store st) p = Done q ∧
    Push q (1 + defaultExpiration (vc st)) = Done (q, Some queue_is_full) ∧
    deref (store st) p = Done q ∧
    (∀ q', deref (store st) p = Done q' →
           UsedSize q' = UsedSize q ∧ entries q' = entries q).
Proof.
  cbn zeta. apply (AllowVisit_denied_no_effect 7 1). reflexivity.
Defined.

(** The capacity of a buffer.  A buffer of capacity [N] refuses a [Push]
    exactly when it already holds [N] events; starting from the new
    buffer, the first [N] calls of [Push] succeed and every later one
    fails with "queue is full"; and a call of [AllowVisit] for a key that
    is in the index and whose buffer holds [N] events is denied and
    changes nothing, while a call that finds fewer events is admitted. *)
Lemma Push_capacity (N : Z) (q : circleQueueInt64) (val : Z) :
  0 ≤ N → reachable_queue N q →
  (∃ q' err, Push q val = Done (q', err) ∧
             (err = Some queue_is_full ↔ UsedSize q = Done N) ∧
             (err = None ↔ UsedSize q ≠ Done N)) ∧
  (∀ vals, ∃ q0 q',
      newCircleQueueInt64 N = Done q0 ∧
      Push_all q0 vals =
        Done (q', replicate (Z.to_nat N `min` length vals) None
                  ++ replicate (length vals - Z.to_nat N)
                       (Some queue_is_full))) ∧
  (∀ st key now index p,
      Load (indexes (vc st)) key = Some index →
      go_index (visitorRecords (vc st)) index = Done p →
      deref (store st) p = Done q →
      (UsedSize q = Done N → AllowVisit key now st = Done (st, false)) ∧
      (UsedSize q ≠ Done N →
       ∃ st', AllowVisit key now st = Done (st', true))).
Proof.
  intros HN Hreach. pose proof (reachable_queue_wf N q HN Hreach) as Hwf.
  pose proof (stored_range N HN q Hwf) as Hr.
  rewrite (UsedSize_wf N HN q Hwf).
  split; [|split].
  - destruct (decide (stored q = N)) as [Hfull | Hroom].
    + exists q, (Some queue_is_full).
      split; [by apply (Push_full N)|]. rewrite Hfull.
      split; [done|]. split; [done|]. by intros [].
    + destruct (Push_room N HN q val Hwf) as (Hrun & _); [lia|].
      exists (pushed q val), None. split; [done|].
      split; [|split; [intros _; congruence | done]].
      split; [done|]. congruence.
  - intros vals. destruct (newCircleQueueInt64_wf N HN) as (q0 & Hq0 & Hwf0 & Hst0 & _).
    destruct (Push_all_errors N vals q0 HN Hwf0) as (q' & Hall & _).
    exists q0, q'. split; [done|]. rewrite Hall, Hst0.
    by replace (N - 0) with N by lia.
  - intros st key now index p HLoad Hindex Hderef. split.
    + intros [= Hfull].
      rewrite (AllowVisit_known_iff_Push key now st index p q HLoad Hindex
                 Hderef q (Some queue_is_full));
        [|by apply (Push_full N)].
      rewrite (write_deref_id _ _ _ Hderef). by destruct st.
    + intros Hroom.
      assert (stored q ≠ N) by congruence.
      destruct (Push_room N HN q (now + defaultExpiration (vc st)) Hwf)
        as (Hrun & _); [lia|].
      eexists.
      by rewrite (AllowVisit_known_iff_Push key now st index p q HLoad Hindex
                    Hderef _ None Hrun).
Qed.

(** C3, at inputs where the code departs from the claim.

    With limit 0 every buffer is full from the start.  The first call for
    key 7 finds the key absent, takes free slot 0, and the [Push] on that
    slot's buffer fails with "queue is full"; [add] drops that error and
    returns [nil], so [AllowVisit] answers [true] although nothing was
    stored.

    With limit 2: after the rebuild key 2 still maps to index 1, now a
    free slot, and fills its buffer with two visits.  The first call for
    key 9 takes free slot 1; the [Push] fails with "queue is full" and
    [AllowVisit] answers [true]. *)
Theorem AllowVisit_admits_when_Push_fails :
  (∃ st st' q,
     new 10 1 0 1 = Done st ∧
     Load (indexes (vc st)) 7 = None ∧
     notUsedVisitorRecordsIndex (vc st) = [0] ∧
     go_index (visitorRecords (vc st)) 0 ≫= deref (store st) = Done q ∧
     Push q (0 + 10) = Done (q, Some queue_is_full) ∧
     AllowVisit 7 0 st = Done (st', true) ∧
     store st' = store st) ∧
  (∃ st st' q,
     run_from_new 10 1 2 1
       (survivor_in_slot_1 ++ [OpGc; OpAllowVisit 2 13; OpAllowVisit 2 14])
     = Done st ∧
     Load (indexes (vc st)) 9 = None ∧
     notUsedVisitorRecordsIndex (vc st) = [1] ∧
     go_index (visitorRecords (vc st)) 1 ≫= deref (store st) = Done q ∧
     Push q (15 + 10) = Done (q, Some queue_is_full) ∧
     AllowVisit 9 15 st = Done (st', true) ∧
     store st' = store st).
Proof. split; do 3 eexists; by vm_compute. Qed.

(** ** Construction *)

Lemma newCircleQueueInt64_fresh (size : Z) :
  -1 ≤ size → newCircleQueueInt64 size = Done (fresh_queue size).
Proof.
  intros Hsize. unfold newCircleQueueInt64, go_make.
  by rewrite decide_True by lia.
Qed.

(** A loop [for i := range s] that maintains [P]. *)
Lemma for_each_count {S : Type} (body : S → Z → outcome S)
    (P : nat → S → Prop) (k a : nat) (s : S) :
  P a s →
  (∀ j s, (a ≤ j < a + k)%nat → P j s →
          ∃ s', body s (Z.of_nat j) = Done s' ∧ P (Datatypes.S j) s') →
  ∃ s', for_each body (seqZ (Z.of_nat a) (Z.of_nat k)) s = Done s' ∧
        P (a + k)%nat s'.
Proof.
  revert a s. induction k as [|k IH]; intros a s Hinit Hstep.
  - exists s. rewrite Nat.add_0_r. done.
  - rewrite seqZ_cons by lia. cbn [for_each].
    destruct (Hstep a s) as (s1 & -> & HP1); [lia | done |].
    cbn [mbind outcome_bind].
    replace (Z.succ (Z.of_nat a)) with (Z.of_nat (Datatypes.S a)) by lia.
    replace (Z.pred (Z.of_nat (Datatypes.S k))) with (Z.of_nat k) by lia.
    destruct (IH (Datatypes.S a) s1 HP1) as (s' & Hrun & HP).
    { intros j s2 Hj. apply Hstep. lia. }
    exists s'. split; [done|].
    by replace (a + Datatypes.S k)%nat with (Datatypes.S a + k)%nat by lia.
Qed.

Lemma fill_records_step (b j N : nat) :
  (j < N)%nat →
  <[j := addr (b + j)]> ((addr <$> seq b j) ++ replicate (N - j) null)
  = (addr <$> seq b (S j)) ++ replicate (N - S j) null.
Proof.
  intros Hj. rewrite insert_app_r_alt by (by rewrite length_fmap, length_seq).
  rewrite length_fmap, length_seq, Nat.sub_diag.
  replace (N - j)%nat with (S (N - S j)) by lia.
  rewrite seq_S, fmap_app, <- app_assoc. done.
Qed.

Lemma new_loop (maxVisitsNum : Z) (N : nat) :
  -1 ≤ maxVisitsNum →
  for_each (new_body maxVisitsNum) (seqZ 0 (len (replicate N null)))
    ([], replicate N null, NewInt)
  = Done (replicate N (fresh_queue maxVisitsNum), addr <$> seq 0 N,
          seqZ 0 (Z.of_nat N)).
Proof.
  intros Hsize. unfold len. rewrite length_replicate.
  destruct (for_each_count (new_body maxVisitsNum)
              (λ j s, s = (replicate j (fresh_queue maxVisitsNum),
                           (addr <$> seq 0 j) ++ replicate (N - j) null,
                           seqZ 0 (Z.of_nat j)))
              N 0 ([], replicate N null, NewInt))
    as (s' & Hrun & ->).
  - by rewrite Nat.sub_0_r.
  - intros j s Hj ->. eexists. split; [|done]. unfold new_body.
    rewrite newCircleQueueInt64_fresh by done. cbn [mbind outcome_bind].
    unfold go_assign.
    rewrite decide_True
      by (rewrite length_app, length_fmap, length_seq, length_replicate; lia).
    cbn [mbind outcome_bind]. rewrite length_replicate, Nat2Z.id.
    pose proof (fill_records_step 0 j N ltac:(lia)) as Hs.
    rewrite Nat.add_0_l in Hs. rewrite Hs.
    rewrite replicate_S_end. unfold Add.
    rewrite decide_False by (rewrite elem_of_seqZ; lia).
    rewrite seqZ_S. done.
  - change (Z.of_nat 0) with 0 in Hrun. rewrite Hrun.
    rewrite Nat.add_0_l, Nat.sub_diag, app_nil_r. done.
Qed.

Lemma new_Done (defaultExpiration cleanupInterval : Z)
    (maxVisitsNum maximumNumberOfOnlineUsers : Z) :
  cleanupInterval ≤ defaultExpiration →
  -1 ≤ maxVisitsNum → 0 ≤ maximumNumberOfOnlineUsers →
  new defaultExpiration cleanupInterval maxVisitsNum maximumNumberOfOnlineUsers
  = Done (new_state defaultExpiration cleanupInterval maxVisitsNum
            maximumNumberOfOnlineUsers).
Proof.
  intros Hsweep Hlimit Husers. unfold new, go_make.
  rewrite bool_decide_false by lia. rewrite decide_True by done.
  cbn [mbind outcome_bind]. rewrite new_loop by done.
  cbn [mbind outcome_bind]. unfold new_state. by rewrite Z2Nat.id.
Qed.






(** ** The rebuild of the pool by [gc] *)

Lemma gc_fill_loop (maxVisitsNum : Z) (h : heap) (N : nat) :
  -1 ≤ maxVisitsNum →
  for_each (gc_fill_body maxVisitsNum) (seqZ 0 (len (replicate N null)))
    (h, replicate N null)
  = Done (h ++ replicate N (fresh_queue maxVisitsNum),
          addr <$> seq (length h) N).
Proof.
  intros Hsize. unfold len. rewrite length_replicate.
  destruct (for_each_count (gc_fill_body maxVisitsNum)
              (λ j s, s = (h ++ replicate j (fresh_queue maxVisitsNum),
                           (addr <$> seq (length h) j)
                           ++ replicate (N - j) null))
              N 0 (h, replicate N null))
    as (s' & Hrun & ->).
  - by rewrite Nat.sub_0_r, app_nil_r.
  - intros j s Hj ->. eexists. split; [|done]. unfold gc_fill_body.
    rewrite newCircleQueueInt64_fresh by done. cbn [mbind outcome_bind].
    unfold go_assign.
    rewrite decide_True
      by (rewrite length_app, length_fmap, length_seq, length_replicate; lia).
    cbn [mbind outcome_bind].
    rewrite length_app, length_replicate, Nat2Z.id.
    rewrite (fill_records_step (length h) j N) by lia.
    by rewrite replicate_S_end, app_assoc.
  - change (Z.of_nat 0) with 0 in Hrun. rewrite Hrun.
    rewrite Nat.add_0_l, Nat.sub_diag, app_nil_r. done.
Qed.

Lemma gc_move_body_Done (old records : list pointer) (j : nat) (kv : Z * Z)
    (p : pointer) :
  0 ≤ snd kv → old !! Z.to_nat (snd kv) = Some p → (j < length records)%nat →
  gc_move_body old (records, Z.of_nat j) kv
  = Done (<[j := p]> records, Z.of_nat (S j)).
Proof.
  intros Hlo Hp Hj. unfold gc_move_body, go_index, go_assign.
  rewrite decide_True by done. rewrite Hp. cbn [mbind outcome_bind].
  rewrite decide_True by lia. cbn [mbind outcome_bind].
  rewrite Nat2Z.id. do 2 f_equal. lia.
Qed.

Lemma gc_move_loop (old : list pointer) (m : syncMap) :
  (∀ kv, kv ∈ m → 0 ≤ snd kv < len old) →
  ∀ (records : list pointer) (j : nat),
    (j + length m ≤ length records)%nat →
    for_each (gc_move_body old) m (records, Z.of_nat j)
    = Done (take j records ++ moved_pointers old m
            ++ drop (j + length m) records,
            Z.of_nat (j + length m)).
Proof.
  induction m as [|kv m IH]; intros Hrange records j Hlen.
  - cbn [for_each moved_pointers fmap list_fmap length app].
    by rewrite Nat.add_0_r, take_drop.
  - cbn [for_each length] in *.
    destruct (Hrange kv) as [Hlo Hhi]; [by left|]. unfold len in *.
    destruct (lookup_lt_is_Some_2 old (Z.to_nat (snd kv))) as [p Hp]; [lia|].
    rewrite (gc_move_body_Done old records j kv p) by (done || lia).
    cbn [mbind outcome_bind].
    rewrite IH; [| intros kv' Hkv'; apply Hrange; by right
                 | rewrite length_insert; lia].
    do 2 f_equal; [|f_equal; lia].
    rewrite drop_insert_lt by lia.
    rewrite (take_S_r _ _ p)
      by (rewrite list_lookup_insert_eq by lia; done).
    rewrite take_insert_ge by lia.
    unfold moved_pointers. cbn [fmap list_fmap]. rewrite Hp.
    cbn [default from_option id]. rewrite <- app_assoc. cbn [app].
    do 4 f_equal. lia.
Qed.

Lemma gc_free_loop_below (a m : nat) :
  (m ≤ a)%nat →
  foldl (gc_free_body (Z.of_nat a)) [] (seqZ 0 (Z.of_nat m)) = [].
Proof.
  induction m as [|m IH]; intros Hm; [done|].
  rewrite seqZ_S, foldl_snoc, IH by lia. unfold gc_free_body.
  by rewrite bool_decide_false by lia.
Qed.

Lemma gc_free_loop (a k : nat) :
  foldl (gc_free_body (Z.of_nat a)) [] (seqZ 0 (Z.of_nat (a + k)))
  = seqZ (Z.of_nat a) (Z.of_nat k).
Proof.
  induction k as [|k IH].
  - rewrite Nat.add_0_r. by apply gc_free_loop_below.
  - replace (a + S k)%nat with (S (a + k)) by lia.
    rewrite seqZ_S, foldl_snoc, IH. unfold gc_free_body.
    rewrite bool_decide_true by lia. unfold Add.
    rewrite decide_False by (rewrite elem_of_seqZ; lia).
    rewrite seqZ_S. do 2 f_equal. lia.
Qed.

(** A rebuilding [gc] returns [gc_state]. *)
Lemma gc_rebuilds (st : state) :
  needGc (vc st) = true →
  -1 ≤ maxVisitsNum (vc st) →
  (∀ kv, kv ∈ indexes (vc st) → 0 ≤ snd kv < len (visitorRecords (vc st))) →
  len (indexes (vc st)) ≤ gc_newLen (vc st) →
  gc st = Done (gc_state st).
Proof.
  intros Hneed Hsize Hrange Hfit. unfold gc, gc_state. rewrite Hneed.
  unfold go_make, len in *. rewrite decide_True by lia.
  cbn [mbind outcome_bind].
  set (N := Z.to_nat (gc_newLen (vc st))).
  set (k := length (indexes (vc st))).
  assert (Hk : (k ≤ N)%nat) by lia.
  pose proof (gc_fill_loop (maxVisitsNum (vc st)) (store st) N Hsize) as Hfill.
  unfold len in Hfill. rewrite Hfill. cbn [mbind outcome_bind].
  pose proof (gc_move_loop (visitorRecords (vc st)) (indexes (vc st)) Hrange
                (addr <$> seq (length (store st)) N) 0) as Hmove.
  change (Z.of_nat 0) with 0 in Hmove.
  rewrite Hmove by (rewrite length_fmap, length_seq; lia).
  cbn [mbind outcome_bind]. fold k.
  rewrite Nat.add_0_l, take_0. cbn [app].
  rewrite <- fmap_drop, drop_seq.
  unfold with_notUsed, with_visitorRecords, Clear. cbn.
  do 3 f_equal.
  rewrite length_app, length_fmap, length_seq.
  unfold moved_pointers. rewrite length_fmap. fold k.
  apply gc_free_loop.
Qed.

(** [gc] never assigns to [indexes]: when it returns, after a rebuild or
    not, every key maps to the index it had before. *)
Lemma gc_keeps_indexes (st st' : state) :
  gc st = Done st' → indexes (vc st') = indexes (vc st).
Proof.
  unfold gc. destruct (needGc (vc st)); [|by intros [= <-]].
  destruct (go_make _ _) as [r0|]; cbn [mbind outcome_bind]; [|done].
  destruct (for_each (gc_fill_body _) _ _) as [[h r1]|];
    cbn [mbind outcome_bind]; [|done].
  destruct (for_each (gc_move_body _) _ _) as [[r2 indexNew]|];
    cbn [mbind outcome_bind]; [|done].
  by intros [= <-].
Qed.




(** C1, at the input where the code departs from the claim.  Before the
    rebuild key 4 is the only key and owns slot 3.  [gc] moves the pointer
    of that slot to the new slot 0 and frees the new slot 1, as claimed;
    but it does not assign to [indexes], so key 4 still maps to 3, which
    is not an index of the new slots: the next call for key 4 panics. *)
Theorem gc_leaves_stale_index :
  ∃ st st',
    run_from_new 10 1 3 1 one_survivor = Done st ∧
    needGc (vc st) = true ∧
    indexes (vc st) = [(4, 3)] ∧
    go_index (visitorRecords (vc st)) 3 = Done (addr 3) ∧
    gc st = Done st' ∧
    visitorRecords (vc st') = [addr 3; addr 5] ∧
    notUsedVisitorRecordsIndex (vc st') = [1] ∧
    Load (indexes (vc st')) 4 = Some 3 ∧
    go_index (visitorRecords (vc st')) 3 = Panics index_out_of_range ∧
    AllowVisit 4 13 st' = Panics index_out_of_range.
Proof. do 2 eexists. by vm_compute. Qed.

(** ** The containers *)

Lemma Load_Some_elem (m : syncMap) (key index : Z) :
  Load m key = Some index → (key, index) ∈ m.
Proof.
  induction m as [|[k v] m IH]; cbn [Load]; [done|].
  case_decide as Hk.
  - intros [= ->]. subst k. by left.
  - intros Hm. right. by apply IH.
Qed.

Lemma Load_None_fresh (m : syncMap) (key : Z) :
  Load m key = None → key ∉ fst <$> m.
Proof.
  induction m as [|[k v] m IH]; cbn [Load fmap list_fmap fst].
  - intros _. by apply not_elem_of_nil.
  - case_decide as Hk; [done|]. intros Hm.
    apply not_elem_of_cons. split; [done | by apply IH].
Qed.

Lemma Store_new (m : syncMap) (key index : Z) :
  Load m key = None → Store m key index = m ++ [(key, index)].
Proof.
  induction m as [|[k v] m IH]; cbn [Load Store app]; [done|].
  case_decide as Hk; [done|]. intros Hm. by rewrite IH.
Qed.

Lemma elem_of_Delete (m : syncMap) (key : Z) (kv : Z * Z) :
  kv ∈ Delete m key ↔ kv ∈ m ∧ fst kv ≠ key.
Proof. unfold Delete. rewrite list_elem_of_filter. tauto. Qed.

Lemma Delete_sublist (m : syncMap) (key : Z) : Delete m key `sublist_of` m.
Proof. apply sublist_filter. Qed.

Lemma same_key_same_index (m : syncMap) (k i j : Z) :
  NoDup (fst <$> m) → (k, i) ∈ m → (k, j) ∈ m → i = j.
Proof.
  induction m as [|[k' v] m IH]; cbn [fmap list_fmap fst].
  - intros _ Hi. by apply elem_of_nil in Hi.
  - intros Hnd Hi Hj. apply NoDup_cons in Hnd as [Hk' Hnd].
    rewrite elem_of_cons in Hi, Hj.
    assert (Hin : ∀ x, (k, x) ∈ m → k ∈ fst <$> m).
    { intros x Hx. apply list_elem_of_fmap. by exists (k, x). }
    destruct Hi as [Hi|Hi], Hj as [Hj|Hj].
    + congruence.
    + apply Hin in Hj. by simplify_eq.
    + apply Hin in Hi. by simplify_eq.
    + by apply IH.
Qed.

Lemma same_index_same_key (m : syncMap) (k k' i : Z) :
  NoDup (snd <$> m) → (k, i) ∈ m → (k', i) ∈ m → k = k'.
Proof.
  induction m as [|[k0 v] m IH]; cbn [fmap list_fmap snd].
  - intros _ Hi. by apply elem_of_nil in Hi.
  - intros Hnd Hk Hk'. apply NoDup_cons in Hnd as [Hv Hnd].
    rewrite elem_of_cons in Hk, Hk'.
    assert (Hin : ∀ x, (x, i) ∈ m → i ∈ snd <$> m).
    { intros x Hx. apply list_elem_of_fmap. by exists (x, i). }
    destruct Hk as [Hk|Hk], Hk' as [Hk'|Hk'].
    + congruence.
    + apply Hin in Hk'. by simplify_eq.
    + apply Hin in Hk. by simplify_eq.
    + by apply IH.
Qed.

Lemma elem_of_Add (s : SetInt) (i j : Z) : j ∈ Add s i ↔ j ∈ s ∨ j = i.
Proof.
  unfold Add. case_decide as Hi.
  - split; [by left|]. by intros [?| ->].
  - rewrite elem_of_app, list_elem_of_singleton. done.
Qed.

Lemma NoDup_Add (s : SetInt) (i : Z) : NoDup s → NoDup (Add s i).
Proof.
  intros Hs. unfold Add. case_decide as Hi; [done|].
  apply NoDup_app. split; [done|]. split; [|apply NoDup_singleton].
  intros j Hj ->%list_elem_of_singleton. done.
Qed.

Lemma elem_of_Remove (s : SetInt) (i j : Z) : j ∈ Remove s i ↔ j ∈ s ∧ j ≠ i.
Proof. unfold Remove. rewrite list_elem_of_filter. tauto. Qed.

(** ** The heap and the slots *)

Lemma deref_write_ne (h : heap) (p p' : pointer) (q : circleQueueInt64) :
  p ≠ p' → deref (write h p q) p' = deref h p'.
Proof.
  intros Hne. destruct p as [|a]; [done|]. destruct p' as [|a']; [done|].
  cbn [deref write]. rewrite list_lookup_insert_ne; [done|]. congruence.
Qed.

Lemma deref_app (h h' : heap) (p : pointer) (q : circleQueueInt64) :
  deref h p = Done q → deref (h ++ h') p = Done q.
Proof.
  destruct p as [|a]; cbn [deref]; [done|].
  destruct (h !! a) as [q0|] eqn:Ha; [|done]. intros [= ->].
  rewrite lookup_app_l by (by eapply lookup_lt_Some). by rewrite Ha.
Qed.

Lemma deref_addr_lt (h : heap) (a : nat) (q : circleQueueInt64) :
  deref h (addr a) = Done q → (a < length h)%nat.
Proof.
  cbn [deref]. destruct (h !! a) as [q0|] eqn:Ha; [|done]. intros _.
  by eapply lookup_lt_Some.
Qed.

Lemma go_index_Done {A} (s : list A) (i : Z) (x : A) :
  go_index s i = Done x ↔ 0 ≤ i ∧ s !! Z.to_nat i = Some x.
Proof.
  unfold go_index. case_decide as Hi.
  - destruct (s !! Z.to_nat i) as [y|]; split.
    + by intros [= ->].
    + by intros [_ [= ->]].
    + done.
    + by intros [_ ?].
  - split; [done | by intros [? _]].
Qed.

Lemma go_index_in_range {A} (s : list A) (i : Z) :
  0 ≤ i < len s → ∃ x, go_index s i = Done x.
Proof.
  intros Hi. unfold len in Hi.
  destruct (lookup_lt_is_Some_2 s (Z.to_nat i)) as [x Hx]; [lia|].
  exists x. apply go_index_Done. split; [lia | done].
Qed.

Lemma go_index_elem {A} (s : list A) (i : Z) (x : A) :
  go_index s i = Done x → x ∈ s.
Proof. intros [_ Hx]%go_index_Done. by eapply list_elem_of_lookup_2. Qed.

Lemma go_index_inj {A} (s : list A) (i j : Z) (x : A) :
  NoDup s → go_index s i = Done x → go_index s j = Done x → i = j.
Proof.
  intros Hs [Hi Hx]%go_index_Done [Hj Hx']%go_index_Done.
  pose proof (NoDup_lookup s _ _ x Hs Hx Hx'). lia.
Qed.

(** ** The state between calls *)

(** A call that only changes the buffer of a slot that is not free. *)
Lemma consistent_write (st : state) (index : Z) (p : pointer)
    (q' : circleQueueInt64) :
  consistent st →
  go_index (visitorRecords (vc st)) index = Done p →
  index ∉ notUsedVisitorRecordsIndex (vc st) →
  wf (maxVisitsNum (vc st)) q' →
  consistent (mkState (write (store st) p q') (vc st)).
Proof.
  intros [Hl Hk Hv Hf Hp Hs Hb He] Hindex Hnotfree Hwf.
  constructor; simpl_state; try done.
  - intros p' Hp'. destruct (decide (p' = p)) as [->|Hne].
    + destruct (Hb p Hp') as (q & Hq & _). exists q'.
      by rewrite (deref_write_same _ _ q).
    + rewrite deref_write_ne by done. by apply Hb.
  - intros i Hi. destruct (He i Hi) as (pi & qi & Hpi & Hqi & Hui).
    exists pi, qi. split; [done|]. split; [|done].
    rewrite deref_write_ne; [done|]. intros ->.
    assert (i = index) by (by eapply go_index_inj). by subst.
Qed.

(** A new key takes a free slot. *)
Lemma consistent_take_slot (st : state) (key index : Z) :
  consistent st →
  Load (indexes (vc st)) key = None →
  index ∈ notUsedVisitorRecordsIndex (vc st) →
  consistent
    (mkState (store st)
       (with_indexes
          (with_notUsed (vc st)
             (Remove (notUsedVisitorRecordsIndex (vc st)) index))
          (Store (indexes (vc st)) key index))).
Proof.
  intros [Hl Hk Hv Hf (Hp1 & Hp2 & Hp3) Hs Hb He] HLoad Hfree.
  pose proof (Load_None_fresh _ _ HLoad) as Hfresh.
  constructor; simpl_state; rewrite ?(Store_new _ _ _ HLoad); try done.
  - rewrite fmap_app. cbn [fmap list_fmap fst].
    apply NoDup_app. split; [done|]. split; [|apply NoDup_singleton].
    intros k Hk' ->%list_elem_of_singleton. done.
  - rewrite fmap_app. cbn [fmap list_fmap snd].
    apply NoDup_app. split; [done|]. split; [|apply NoDup_singleton].
    intros i Hi ->%list_elem_of_singleton.
    apply list_elem_of_fmap in Hi as ([k i] & Heq & Hki).
    cbn [snd] in Heq. subst i. by apply (proj2 (Hp2 _ Hfree) k).
  - by apply NoDup_filter.
  - split; [|split].
    + intros k i [Hki | Hki%list_elem_of_singleton]%elem_of_app.
      * destruct (Hp1 k i Hki) as [Hr Hn]. split; [done|].
        rewrite elem_of_Remove. tauto.
      * simplify_eq. split; [apply (Hp2 _ Hfree)|].
        rewrite elem_of_Remove. tauto.
    + intros i [Hi Hne]%elem_of_Remove. split; [apply (Hp2 _ Hi)|].
      intros k [Hki | Hki%list_elem_of_singleton]%elem_of_app.
      * by apply (proj2 (Hp2 _ Hi) k).
      * by simplify_eq.
    + intros i Hi. destruct (Hp3 i Hi) as [Hif | [k Hki]].
      * destruct (decide (i = index)) as [->|Hne].
        -- right. exists key. apply elem_of_app. right. by left.
        -- left. by apply elem_of_Remove.
      * right. exists k. apply elem_of_app. by left.
  - intros i [Hi _]%elem_of_Remove. by apply He.
Qed.

(** A new key gets a new slot at the end of the pool. *)
Lemma consistent_append (st : state) (key : Z) (q' : circleQueueInt64) :
  consistent st →
  Load (indexes (vc st)) key = None →
  notUsedVisitorRecordsIndex (vc st) = [] →
  wf (maxVisitsNum (vc st)) q' →
  let records := visitorRecords (vc st) ++ [addr (length (store st))] in
  consistent
    (mkState (store st ++ [q'])
       (with_indexes (with_visitorRecords (vc st) records)
          (Store (indexes (vc st)) key (len records - 1)))).
Proof.
  intros [Hl Hk Hv Hf (Hp1 & Hp2 & Hp3) Hs Hb He] HLoad Hnone Hwf records.
  pose proof (Load_None_fresh _ _ HLoad) as Hfresh.
  assert (Hlen : len records - 1 = len (visitorRecords (vc st))).
  { unfold records, len. rewrite length_app. cbn [length]. lia. }
  rewrite Hlen.
  constructor; simpl_state; rewrite ?(Store_new _ _ _ HLoad); try done.
  - rewrite fmap_app. cbn [fmap list_fmap fst].
    apply NoDup_app. split; [done|]. split; [|apply NoDup_singleton].
    intros k Hk' ->%list_elem_of_singleton. done.
  - rewrite fmap_app. cbn [fmap list_fmap snd].
    apply NoDup_app. split; [done|]. split; [|apply NoDup_singleton].
    intros i Hi ->%list_elem_of_singleton.
    apply list_elem_of_fmap in Hi as ([k i] & Heq & Hki).
    cbn [snd] in Heq. destruct (Hp1 k i Hki) as [Hr _]. lia.
  - rewrite Hnone in *. unfold records, len. rewrite length_app.
    cbn [length]. split; [|split].
    + intros k i [Hki | Hki%list_elem_of_singleton]%elem_of_app.
      * destruct (Hp1 k i Hki) as [Hr Hn]. unfold len in Hr.
        split; [lia | done].
      * simplify_eq. unfold len. split; [lia | apply not_elem_of_nil].
    + intros i Hi. by apply elem_of_nil in Hi.
    + intros i Hi. right.
      destruct (decide (i = len (visitorRecords (vc st)))) as [->|Hne].
      * exists key. apply elem_of_app. right. by left.
      * destruct (Hp3 i) as [Hif | [k Hki]]; [unfold len in *; lia | |].
        -- by apply elem_of_nil in Hif.
        -- exists k. apply elem_of_app. by left.
  - apply NoDup_app. split; [done|]. split; [|apply NoDup_singleton].
    intros p Hp ->%list_elem_of_singleton.
    destruct (Hb _ Hp) as (q & Hq%deref_addr_lt & _). lia.
  - intros p [Hp | ->%list_elem_of_singleton]%elem_of_app.
    + destruct (Hb p Hp) as (q & Hq & Hwfq). exists q.
      split; [by apply deref_app | done].
    + exists q'. split; [|done]. cbn [deref].
      rewrite lookup_app_r by lia. by rewrite Nat.sub_diag.
  - intros i Hi. rewrite Hnone in Hi. by apply elem_of_nil in Hi.
Qed.

(** The sweep returns the slot of a key whose buffer is empty. *)
Lemma consistent_release (st : state) (k index : Z) :
  consistent st →
  (k, index) ∈ indexes (vc st) →
  (∃ p q, go_index (visitorRecords (vc st)) index = Done p ∧
          deref (store st) p = Done q ∧ UsedSize q = Done 0) →
  consistent
    (mkState (store st)
       (with_notUsed (with_indexes (vc st) (Delete (indexes (vc st)) k))
          (Add (notUsedVisitorRecordsIndex (vc st)) index))).
Proof.
  intros [Hl Hk Hv Hf (Hp1 & Hp2 & Hp3) Hs Hb He] Hkey Hempty.
  constructor; simpl_state; try done.
  - eapply sublist_NoDup; [exact Hk|]. apply fmap_sublist, Delete_sublist.
  - eapply sublist_NoDup; [exact Hv|]. apply fmap_sublist, Delete_sublist.
  - by apply NoDup_Add.
  - split; [|split].
    + intros k' i [Hki Hne]%elem_of_Delete. cbn [fst] in Hne.
      destruct (Hp1 k' i Hki) as [Hr Hn]. split; [done|].
      rewrite elem_of_Add. intros [Hif | ->]; [done|].
      apply Hne. by eapply same_index_same_key.
    + intros i [Hif | ->]%elem_of_Add.
      * split; [apply (Hp2 _ Hif)|].
        intros k' [Hki _]%elem_of_Delete. by apply (proj2 (Hp2 _ Hif) k').
      * split; [apply (Hp1 _ _ Hkey)|].
        intros k' [Hki Hne]%elem_of_Delete. cbn [fst] in Hne.
        apply Hne. by eapply same_index_same_key.
    + intros i Hi. destruct (Hp3 i Hi) as [Hif | [k' Hki]].
      * left. apply elem_of_Add. by left.
      * destruct (decide (k' = k)) as [->|Hne].
        -- left. apply elem_of_Add. right. by eapply same_key_same_index.
        -- right. exists k'. by apply elem_of_Delete.
  - intros i [Hif | ->]%elem_of_Add; [by apply He | done].
Qed.

Lemma Push_wf (n : Z) (q : circleQueueInt64) (val : Z) :
  0 ≤ n → wf n q →
  ∃ q' err, Push q val = Done (q', err) ∧ wf n q' ∧
            (err = None ↔ stored q < n) ∧
            stored q' = if decide (stored q < n) then stored q + 1 else n.
Proof.
  intros Hn Hwf. pose proof (stored_range n Hn q Hwf) as Hr.
  destruct (decide (stored q < n)) as [Hroom | Hfull].
  - destruct (Push_room n Hn q val Hwf Hroom) as (Hrun & Hwf' & Hst).
    by exists (pushed q val), None.
  - exists q, (Some queue_is_full).
    split; [apply (Push_full n Hn q val Hwf); lia|].
    split; [done|]. split; [|lia]. split; [done | lia].
Qed.

(** [add], hence [AllowVisit], returns and keeps the state consistent. *)
Lemma add_consistent (key now : Z) (st : state) :
  consistent st →
  ∃ st' err, add key now st = Done (st', err) ∧ consistent st'.
Proof.
  intros Hc. pose proof (limit_nonneg st Hc) as Hl.
  destruct (Load (indexes (vc st)) key) as [index|] eqn:HLoad.
  - pose proof (Load_Some_elem _ _ _ HLoad) as Hkey.
    destruct (slots_partition st Hc) as (Hp1 & _ & _).
    destruct (Hp1 _ _ Hkey) as [Hrange Hnotfree].
    destruct (go_index_in_range _ _ Hrange) as [p Hp].
    destruct (slots_buffers st Hc p (go_index_elem _ _ _ Hp)) as (q & Hq & Hwf).
    destruct (Push_wf _ q (now + defaultExpiration (vc st)) Hl Hwf)
      as (q' & err & HPush & Hwf' & _).
    rewrite (add_known key now st index p q) by done. rewrite HPush.
    eexists _, _. split; [done|]. by eapply consistent_write.
  - destruct (notUsedVisitorRecordsIndex (vc st)) as [|index free] eqn:Hfree.
    + destruct (newCircleQueueInt64_wf _ Hl) as (q0 & Hq0 & Hwf0 & _).
      destruct (Push_wf _ q0 (now + defaultExpiration (vc st)) Hl Hwf0)
        as (q' & err & HPush & Hwf' & _).
      unfold add. rewrite HLoad, Hfree, Hq0. cbn [mbind outcome_bind].
      rewrite HPush. cbn [mbind outcome_bind].
      eexists _, _. split; [done|]. by apply consistent_append.
    + assert (Hin : index ∈ notUsedVisitorRecordsIndex (vc st))
        by (rewrite Hfree; by left).
      destruct (slots_partition st Hc) as (_ & Hp2 & _).
      destruct (Hp2 _ Hin) as [Hrange _].
      destruct (go_index_in_range _ _ Hrange) as [p Hp].
      destruct (slots_buffers st Hc p (go_index_elem _ _ _ Hp)) as (q & Hq & Hwf).
      destruct (Push_wf _ q (now + defaultExpiration (vc st)) Hl Hwf)
        as (q' & err & HPush & Hwf' & _).
      unfold add, Push_at. rewrite HLoad, Hfree, Hp. cbn [mbind outcome_bind].
      rewrite Hq. cbn [mbind outcome_bind]. rewrite HPush.
      cbn [mbind outcome_bind].
      eexists _, _. split; [done|]. rewrite <- Hfree.
      apply (consistent_write
               (mkState (store st)
                  (with_indexes
                     (with_notUsed (vc st)
                        (Remove (notUsedVisitorRecordsIndex (vc st)) index))
                     (Store (indexes (vc st)) key index)))
               index p q').
      * by apply consistent_take_slot.
      * done.
      * simpl_state. rewrite elem_of_Remove. tauto.
      * done.
Qed.

Lemma AllowVisit_consistent (key now : Z) (st : state) :
  consistent st →
  ∃ st' allowed, AllowVisit key now st = Done (st', allowed) ∧ consistent st'.
Proof.
  intros Hc. destruct (add_consistent key now st Hc) as (st' & err & Hadd & Hc').
  unfold AllowVisit. rewrite Hadd. by eexists _, _.
Qed.

(** One step of the sweep, on an entry of the index. *)
Lemma deleteExpiredOnce_body_consistent (now : Z → Z) (st : state)
    (k index : Z) :
  consistent st → (k, index) ∈ indexes (vc st) →
  ∃ st', deleteExpiredOnce_body now st (k, index) = Done st' ∧
         consistent st' ∧
         (indexes (vc st') = indexes (vc st) ∨
          indexes (vc st') = Delete (indexes (vc st)) k).
Proof.
  intros Hc Hkey. pose proof (limit_nonneg st Hc) as Hl.
  destruct (slots_partition st Hc) as (Hp1 & _ & _).
  destruct (Hp1 _ _ Hkey) as [Hrange Hnotfree].
  destruct (go_index_in_range _ _ Hrange) as [p Hp].
  destruct (slots_buffers st Hc p (go_index_elem _ _ _ Hp)) as (q & Hq & Hwf).
  destruct (DeleteExpired_spec _ Hl (now k) q Hwf) as (q' & Hdel & Hwf' & _).
  pose proof (consistent_write st index p q' Hc Hp Hnotfree Hwf') as Hc'.
  unfold deleteExpiredOnce_body, DeleteExpired_at, Size_at, Size.
  rewrite bool_decide_true by lia. rewrite Hp. cbn [mbind outcome_bind].
  rewrite Hq. cbn [mbind outcome_bind]. rewrite Hdel. cbn [mbind outcome_bind].
  rewrite (deref_write_same _ _ q q') by done. cbn [mbind outcome_bind].
  rewrite (UsedSize_wf _ Hl q' Hwf'). cbn [mbind outcome_bind].
  case_bool_decide as Hempty.
  - eexists. split; [done|]. split; [|by right].
    apply (consistent_release (mkState (write (store st) p q') (vc st)) k index);
      [done | done |].
    exists p, q'. simpl_state. split; [done|].
    split; [by apply (deref_write_same _ _ q)|].
    by rewrite (UsedSize_wf _ Hl q' Hwf'), Hempty.
  - eexists. split; [done|]. split; [done | by left].
Qed.

Lemma deleteExpiredOnce_loop_consistent (now : Z → Z) (l : syncMap) :
  ∀ st, consistent st → NoDup (fst <$> l) →
        (∀ kv, kv ∈ l → kv ∈ indexes (vc st)) →
        ∃ st', for_each (deleteExpiredOnce_body now) l st = Done st' ∧
               consistent st'.
Proof.
  induction l as [|[k index] l IH]; intros st Hc Hnd Hsub.
  - by exists st.
  - cbn [fmap list_fmap fst] in Hnd. apply NoDup_cons in Hnd as [Hk Hnd].
    destruct (deleteExpiredOnce_body_consistent now st k index Hc)
      as (st1 & Hrun & Hc1 & Hidx); [apply Hsub; by left|].
    cbn [for_each]. rewrite Hrun. cbn [mbind outcome_bind].
    apply IH; [done | done |].
    intros kv Hkv. assert (fst kv ≠ k) as Hne.
    { intros <-. apply Hk. by apply list_elem_of_fmap_2. }
    destruct Hidx as [-> | ->].
    + apply Hsub. by right.
    + apply elem_of_Delete. split; [|done]. apply Hsub. by right.
Qed.

(** The sweep returns and keeps the state consistent. *)
Lemma deleteExpiredOnce_consistent (now : Z → Z) (st : state) :
  consistent st →
  ∃ st', deleteExpiredOnce now st = Done st' ∧ consistent st'.
Proof.
  intros Hc. apply deleteExpiredOnce_loop_consistent;
    [done | by apply keys_NoDup | done].
Qed.

(** The state [new] returns is consistent. *)
Lemma new_state_consistent (defaultExpiration cleanupInterval : Z)
    (maxVisitsNum maximumNumberOfOnlineUsers : Z) :
  0 ≤ maxVisitsNum → 0 ≤ maximumNumberOfOnlineUsers →
  consistent (new_state defaultExpiration cleanupInterval maxVisitsNum
                maximumNumberOfOnlineUsers).
Proof.
  intros Hl Hu. destruct (newCircleQueueInt64_wf _ Hl) as (q0 & Hq0 & Hwf0 & Hst0 & Heq).
  rewrite newCircleQueueInt64_fresh in Hq0 by lia. injection Hq0 as <-.
  assert (Hderef : ∀ a, (a < Z.to_nat maximumNumberOfOnlineUsers)%nat →
            deref (replicate (Z.to_nat maximumNumberOfOnlineUsers)
                     (fresh_queue maxVisitsNum)) (addr a)
            = Done (fresh_queue maxVisitsNum)).
  { intros a Ha. cbn [deref]. by rewrite lookup_replicate_2. }
  unfold new_state. constructor; simpl_state.
  - done.
  - apply NoDup_nil_2.
  - apply NoDup_nil_2.
  - apply NoDup_seqZ.
  - unfold len. rewrite length_fmap, length_seq. split; [|split].
    + intros k i Hki. by apply elem_of_nil in Hki.
    + intros i Hi%elem_of_seqZ. split; [lia|]. intros k. apply not_elem_of_nil.
    + intros i Hi. left. apply elem_of_seqZ. lia.
  - apply (NoDup_fmap_2 addr), NoDup_seq.
  - intros p (a & -> & Ha%elem_of_seq)%list_elem_of_fmap.
    exists (fresh_queue maxVisitsNum). split; [apply Hderef; lia | done].
  - intros i Hi%elem_of_seqZ.
    exists (addr (Z.to_nat i)), (fresh_queue maxVisitsNum).
    split; [|split].
    + apply go_index_Done. split; [lia|].
      rewrite list_lookup_fmap, lookup_seq_lt by lia. done.
    + apply Hderef. lia.
    + by rewrite (UsedSize_wf _ Hl _ Hwf0), Hst0.
Qed.

(** In a consistent state the keys are as many as the slots that are not
    free. *)
Lemma consistent_count (st : state) :
  consistent st →
  len (indexes (vc st))
  = len (visitorRecords (vc st)) - len (notUsedVisitorRecordsIndex (vc st)).
Proof.
  intros [Hl Hk Hv Hf (Hp1 & Hp2 & Hp3) Hs Hb He].
  assert (Hperm : (snd <$> indexes (vc st)) ++ notUsedVisitorRecordsIndex (vc st)
                  ≡ₚ seqZ 0 (len (visitorRecords (vc st)))).
  { apply NoDup_Permutation.
    - apply NoDup_app. split; [done|]. split; [|done].
      intros i ([k i'] & Heq & Hki)%list_elem_of_fmap. cbn [snd] in Heq.
      subst i'. apply (Hp1 k i Hki).
    - apply NoDup_seqZ.
    - intros i. rewrite elem_of_app, elem_of_seqZ. split.
      + intros [([k i'] & Heq & Hki)%list_elem_of_fmap | Hi].
        * cbn [snd] in Heq. subst i'. destruct (Hp1 k i Hki). lia.
        * destruct (Hp2 i Hi). lia.
      + intros Hi. destruct (Hp3 i) as [Hif | [k Hki]]; [lia | by right |].
        left. apply list_elem_of_fmap. by exists (k, i). }
  apply Permutation_length in Hperm.
  rewrite length_app, length_fmap, length_seqZ in Hperm. unfold len in *. lia.
Qed.

(** In a consistent state [gc] returns: the state itself when no
    compaction is needed, [gc_state] otherwise. *)
Lemma gc_consistent_Done (st : state) :
  consistent st →
  gc st = Done (if needGc (vc st) then gc_state st else st).
Proof.
  intros Hc. destruct (needGc (vc st)) eqn:Hneed.
  - pose proof (consistent_count st Hc) as Hcount.
    apply gc_rebuilds; [done | pose proof (limit_nonneg st Hc); lia | |].
    + intros [k i] Hki. destruct (slots_partition st Hc) as (Hp1 & _).
      apply (Hp1 k i Hki).
    + unfold gc_newLen. rewrite <- Hcount. unfold len.
      case_bool_decide; lia.
  - unfold gc. by rewrite Hneed.
Qed.

(** The order of the entries does not matter to consistency. *)
Lemma reorder_consistent (m : syncMap) (s : SetInt) (st : state) :
  consistent st → consistent (reorder m s st).
Proof.
  intros Hc. unfold reorder. case_decide as Hperm; [|done].
  destruct Hperm as [Hm Hs].
  destruct Hc as [Hl Hk Hv Hf (Hp1 & Hp2 & Hp3) Hsl Hb He].
  constructor; simpl_state; try done.
  - by rewrite Hm.
  - by rewrite Hm.
  - by rewrite Hs.
  - split; [|split].
    + intros k i Hki. rewrite Hm in Hki. rewrite Hs. apply (Hp1 k i Hki).
    + intros i Hi. rewrite Hs in Hi. split; [by apply Hp2|].
      intros k. rewrite Hm. by apply (proj2 (Hp2 i Hi) k).
    + intros i Hi. destruct (Hp3 i Hi) as [Hif | [k Hki]].
      * left. by rewrite Hs.
      * right. exists k. by rewrite Hm.
  - intros i Hi. rewrite Hs in Hi. by apply He.
Qed.

(** [AllowVisit] and [deleteExpiredOnce], and [gc] as long as it finds
    nothing to compact, return and keep the state consistent. *)
Lemma run_op_consistent (st : state) (o : op) :
  consistent st → ¬ rebuilds st o →
  ∃ st', run_op st o = Done st' ∧ consistent st'.
Proof.
  intros Hc Hquiet. destruct o as [key now | now | | m s]; cbn [run_op].
  - destruct (AllowVisit_consistent key now st Hc) as (st' & b & -> & Hc').
    by exists st'.
  - by apply deleteExpiredOnce_consistent.
  - rewrite (gc_consistent_Done st Hc).
    destruct (needGc (vc st)) eqn:Hneed; [|by exists st].
    by destruct Hquiet.
  - eexists. split; [done|]. by apply reorder_consistent.
Qed.

Lemma run_consistent (ops : list op) :
  ∀ st, consistent st → quiet ops st →
        ∃ st', run ops st = Done st' ∧ consistent st'.
Proof.
  induction ops as [|o ops IH]; intros st Hc Hquiet.
  - by exists st.
  - destruct Hquiet as [Hq Hrest].
    destruct (run_op_consistent st o Hc Hq) as (st1 & Hrun & Hc1).
    unfold run. cbn [for_each]. rewrite Hrun. cbn [mbind outcome_bind].
    by apply IH; [|apply Hrest].
Qed.

(** From construction on, as long as no [gc] rebuilds the pool, no call
    panics, the slots stay partitioned between the keys and the free set,
    and the free slots hold empty buffers. *)
Lemma run_from_new_consistent (defaultExpiration cleanupInterval : Z)
    (maxVisitsNum maximumNumberOfOnlineUsers : Z) (ops : list op) :
  cleanupInterval ≤ defaultExpiration →
  0 ≤ maxVisitsNum → 0 ≤ maximumNumberOfOnlineUsers →
  quiet ops (new_state defaultExpiration cleanupInterval maxVisitsNum
               maximumNumberOfOnlineUsers) →
  ∃ st, run_from_new defaultExpiration cleanupInterval maxVisitsNum
          maximumNumberOfOnlineUsers ops = Done st ∧
        slot_partition (vc st) ∧ free_slots_empty st.
Proof.
  intros Hsweep Hl Hu Hquiet. unfold run_from_new.
  rewrite new_Done by lia. cbn [mbind outcome_bind].
  destruct (run_consistent ops _ (new_state_consistent _ _ _ _ Hl Hu) Hquiet)
    as (st & Hrun & Hc).
  exists st. split; [done|]. split; [apply Hc | apply Hc].
Qed.

(** The sweep adds a slot to the free set only after [Size()] returned 0
    for its buffer. *)
Lemma deleteExpiredOnce_body_frees_empty (now : Z → Z) (st st' : state)
    (k index : Z) :
  deleteExpiredOnce_body now st (k, index) = Done st' →
  ∀ i, i ∈ notUsedVisitorRecordsIndex (vc st') →
       i ∈ notUsedVisitorRecordsIndex (vc st) ∨
       i = index ∧
       ∃ p q, go_index (visitorRecords (vc st')) index = Done p ∧
              deref (store st') p = Done q ∧ Size q = Done 0.
Proof.
  unfold deleteExpiredOnce_body, Size_at.
  case_bool_decide as Hrange; [|intros [= <-]; by left].
  destruct (go_index _ index) as [p|] eqn:Hp; cbn [mbind outcome_bind];
    [|done].
  destruct (DeleteExpired_at _ p _) as [h|]; cbn [mbind outcome_bind];
    [|done].
  destruct (deref h p) as [q|] eqn:Hq; cbn [mbind outcome_bind]; [|done].
  destruct (Size q) as [sz|] eqn:Hsz; cbn [mbind outcome_bind]; [|done].
  case_bool_decide as Hzero; intros [= <-] i; simpl_state; [|by left].
  intros [Hi | ->]%elem_of_Add; [by left|]. right. split; [done|].
  exists p, q. by subst sz.
Qed.

(** After a rebuild every free slot holds a buffer that [gc] has just
    built, which is empty. *)
Lemma gc_state_free_fresh (st : state) (i : Z) :
  0 ≤ maxVisitsNum (vc st) →
  i ∈ notUsedVisitorRecordsIndex (vc (gc_state st)) →
  ∃ a, go_index (visitorRecords (vc (gc_state st))) i = Done (addr a) ∧
       (length (store st) ≤ a)%nat ∧
       deref (store (gc_state st)) (addr a)
       = Done (fresh_queue (maxVisitsNum (vc st))) ∧
       UsedSize (fresh_queue (maxVisitsNum (vc st))) = Done 0.
Proof.
  intros Hl. unfold gc_state. simpl_state.
  set (N := Z.to_nat (gc_newLen (vc st))).
  set (k := length (indexes (vc st))).
  intros Hi%elem_of_seqZ.
  exists (length (store st) + Z.to_nat i)%nat. split; [|split; [lia|split]].
  - apply go_index_Done. split; [lia|].
    rewrite lookup_app_r
      by (unfold moved_pointers; rewrite length_fmap; fold k; lia).
    unfold moved_pointers. rewrite length_fmap. fold k.
    rewrite list_lookup_fmap, lookup_seq_lt by lia. cbn. do 2 f_equal. lia.
  - cbn [deref]. rewrite lookup_app_r by lia.
    rewrite lookup_replicate_2 by lia. done.
  - destruct (newCircleQueueInt64_wf _ Hl) as (q0 & Hq0 & Hwf0 & Hst0 & _).
    rewrite newCircleQueueInt64_fresh in Hq0 by lia. injection Hq0 as <-.
    by rewrite (UsedSize_wf _ Hl _ Hwf0), Hst0.
Qed.

(** ** The limit, call after call *)

Lemma Load_Store (m : syncMap) (key index : Z) :
  Load (Store m key index) key = Some index.
Proof.
  induction m as [|[k v] m IH]; cbn [Store Load].
  - by rewrite decide_True.
  - case_decide as Hk; cbn [Load]; rewrite ?decide_True by done;
      [done|]. by rewrite decide_False.
Qed.

Lemma key_holds_buffer (key u : Z) (st : state) :
  consistent st → key_holds key u st →
  ∃ index p q,
    Load (indexes (vc st)) key = Some index ∧
    go_index (visitorRecords (vc st)) index = Done p ∧
    deref (store st) p = Done q ∧
    u ≤ stored q ∧ wf (maxVisitsNum (vc st)) q.
Proof.
  intros Hc (index & p & q & HLoad & Hp & Hq & Hu).
  destruct (slots_buffers st Hc p (go_index_elem _ _ _ Hp)) as (q0 & Hq0 & Hwf).
  exists index, p, q. assert (q0 = q) as -> by congruence. done.
Qed.

Lemma AllowVisit_next (key now u : Z) (st : state) :
  consistent st → key_holds key u st →
  ∃ st' allowed,
    AllowVisit key now st = Done (st', allowed) ∧ consistent st' ∧
    key_holds key ((u + 1) `min` maxVisitsNum (vc st)) st' ∧
    maxVisitsNum (vc st') = maxVisitsNum (vc st).
Proof.
  intros Hc Hholds. pose proof (limit_nonneg st Hc) as Hl.
  destruct (key_holds_buffer key u st Hc Hholds)
    as (index & p & q & HLoad & Hp & Hq & Hu & Hwf).
  destruct (AllowVisit_consistent key now st Hc) as (st' & b & Hrun & Hc').
  destruct (Push_wf _ q (now + defaultExpiration (vc st)) Hl Hwf)
    as (q' & err & HPush & Hwf' & _ & Hst').
  exists st', b. split; [done|]. split; [done|].
  rewrite (AllowVisit_known_iff_Push key now st index p q HLoad Hp Hq q' err
             HPush) in Hrun.
  injection Hrun as <- _. split; [|done].
  exists index, p, q'. simpl_state. split; [done|]. split; [done|].
  split; [by apply (deref_write_same _ _ q)|].
  rewrite Hst'. repeat case_decide; lia.
Qed.

Lemma AllowVisit_first (key now : Z) (st : state) :
  consistent st → 1 ≤ maxVisitsNum (vc st) →
  ∃ st' allowed,
    AllowVisit key now st = Done (st', allowed) ∧ consistent st' ∧
    key_holds key 1 st' ∧
    maxVisitsNum (vc st') = maxVisitsNum (vc st).
Proof.
  intros Hc Hlimit. pose proof (limit_nonneg st Hc) as Hl.
  destruct (Load (indexes (vc st)) key) as [index|] eqn:HLoad.
  - pose proof (Load_Some_elem _ _ _ HLoad) as Hkey.
    destruct (slots_partition st Hc) as (Hp1 & _ & _).
    destruct (Hp1 _ _ Hkey) as [Hrange _].
    destruct (go_index_in_range _ _ Hrange) as [p Hp].
    destruct (slots_buffers st Hc p (go_index_elem _ _ _ Hp)) as (q & Hq & Hwf).
    pose proof (stored_range _ Hl q Hwf) as Hr.
    destruct (AllowVisit_next key now 0 st Hc) as (st' & b & Hrun & Hc' & Hh & Hm).
    { exists index, p, q. repeat split; [done..|lia]. }
    exists st', b. rewrite Z.min_l in Hh by lia. done.
  - destruct (AllowVisit_consistent key now st Hc) as (st' & b & Hrun & Hc').
    exists st', b. split; [done|]. split; [done|].
    unfold AllowVisit, add, Push_at in Hrun. rewrite HLoad in Hrun.
    destruct (notUsedVisitorRecordsIndex (vc st)) as [|index free] eqn:Hfree.
    + destruct (newCircleQueueInt64_wf _ Hl) as (q0 & Hq0 & Hwf0 & Hst0 & _).
      destruct (Push_wf _ q0 (now + defaultExpiration (vc st)) Hl Hwf0)
        as (q' & err & HPush & Hwf' & _ & Hst').
      rewrite Hq0 in Hrun. cbn [mbind outcome_bind] in Hrun.
      rewrite HPush in Hrun. cbn [mbind outcome_bind] in Hrun.
      injection Hrun as <- _. split; [|done]. simpl_state.
      exists (len (visitorRecords (vc st) ++ [addr (length (store st))]) - 1),
        (addr (length (store st))), q'.
      simpl_state. split; [apply Load_Store|]. split; [|split].
      * apply go_index_Done. unfold len. rewrite length_app. cbn [length].
        split; [lia|]. rewrite lookup_app_r by lia.
        by replace (Z.to_nat _ - _)%nat with O by lia.
      * cbn [deref]. rewrite lookup_app_r by lia. by rewrite Nat.sub_diag.
      * rewrite Hst', Hst0. repeat case_decide; lia.
    + assert (Hin : index ∈ notUsedVisitorRecordsIndex (vc st))
        by (rewrite Hfree; by left).
      destruct (slots_partition st Hc) as (_ & Hp2 & _).
      destruct (Hp2 _ Hin) as [Hrange _].
      destruct (go_index_in_range _ _ Hrange) as [p Hp].
      destruct (slots_buffers st Hc p (go_index_elem _ _ _ Hp)) as (q & Hq & Hwf).
      pose proof (stored_range _ Hl q Hwf) as Hr.
      destruct (Push_wf _ q (now + defaultExpiration (vc st)) Hl Hwf)
        as (q' & err & HPush & Hwf' & _ & Hst').
      rewrite Hp in Hrun. cbn [mbind outcome_bind] in Hrun.
      rewrite Hq in Hrun. cbn [mbind outcome_bind] in Hrun.
      rewrite HPush in Hrun. cbn [mbind outcome_bind] in Hrun.
      injection Hrun as <- _. split; [|done].
      exists index, p, q'. simpl_state. split; [apply Load_Store|].
      split; [done|]. split; [by apply (deref_write_same _ _ q)|].
      rewrite Hst'. repeat case_decide; lia.
Qed.

Lemma key_holds_mono (key u u' : Z) (st : state) :
  u' ≤ u → key_holds key u st → key_holds key u' st.
Proof.
  intros Hle (index & p & q & HLoad & Hp & Hq & Hu).
  exists index, p, q. repeat split; [done..|lia].
Qed.

Lemma AllowVisit_each_holds (key : Z) (nows : list Z) :
  ∀ st u, consistent st → key_holds key u st →
    ∃ st' answers,
      AllowVisit_each key nows st = Done (st', answers) ∧ consistent st' ∧
      key_holds key ((u + len nows) `min` maxVisitsNum (vc st)) st' ∧
      maxVisitsNum (vc st') = maxVisitsNum (vc st).
Proof.
  induction nows as [|now nows IH]; intros st u Hc Hholds.
  - exists st, []. split; [done|]. split; [done|]. split; [|done].
    eapply key_holds_mono; [|done]. unfold len. cbn [length]. lia.
  - destruct (AllowVisit_next key now u st Hc Hholds)
      as (st1 & b & Hrun & Hc1 & Hh1 & Hm1).
    destruct (IH st1 _ Hc1 Hh1) as (st2 & bs & Hrun2 & Hc2 & Hh2 & Hm2).
    exists st2, (b :: bs). cbn [AllowVisit_each]. rewrite Hrun.
    cbn [mbind outcome_bind]. rewrite Hrun2. cbn [mbind outcome_bind].
    split; [done|]. split; [done|]. split; [|congruence].
    eapply key_holds_mono; [|done]. rewrite Hm1. unfold len. cbn [length].
    lia.
Qed.

(** With a limit of at least 1, in a consistent state: after [limit]
    calls of [AllowVisit] for a key, whatever they answered, every
    further call for that key is denied and changes nothing, until an
    event of the key is removed. *)
Lemma limit_enforced (key : Z) (nows : list Z) (st : state) :
  consistent st → 1 ≤ maxVisitsNum (vc st) →
  len nows = maxVisitsNum (vc st) →
  ∃ st' answers,
    AllowVisit_each key nows st = Done (st', answers) ∧
    ∀ now, AllowVisit key now st' = Done (st', false).
Proof.
  intros Hc Hlimit Hlen. destruct nows as [|now0 nows].
  { unfold len in Hlen. cbn [length] in Hlen. lia. }
  destruct (AllowVisit_first key now0 st Hc Hlimit)
    as (st1 & b & Hrun & Hc1 & Hh1 & Hm1).
  destruct (AllowVisit_each_holds key nows st1 1 Hc1 Hh1)
    as (st2 & bs & Hrun2 & Hc2 & Hh2 & Hm2).
  exists st2, (b :: bs). cbn [AllowVisit_each]. rewrite Hrun.
  cbn [mbind outcome_bind]. rewrite Hrun2. cbn [mbind outcome_bind].
  split; [done|]. intros now.
  destruct (key_holds_buffer key _ st2 Hc2 Hh2)
    as (index & p & q & HLoad & Hp & Hq & Hu & Hwf).
  pose proof (limit_nonneg st2 Hc2) as Hl2.
  pose proof (stored_range _ Hl2 q Hwf) as Hr.
  unfold len in *. cbn [length] in Hlen.
  rewrite (AllowVisit_known_iff_Push key now st2 index p q HLoad Hp Hq q
             (Some queue_is_full)).
  - rewrite (write_deref_id _ _ _ Hq). by destruct st2.
  - apply (Push_full _ Hl2 q _ Hwf). lia.
Qed.

(** ** Where the invariants are lost *)

Lemma quiet_without_gc (ops : list op) :
  Forall (λ o, o ≠ OpGc) ops → ∀ st, quiet ops st.
Proof.
  induction 1 as [|o ops Ho _ IH]; intros st; cbn [quiet]; [done|].
  split; [by intros [? _] | intros st' _; apply IH].
Qed.

(** C2, at the input where the code departs from the claim.  The run
    [one_survivor] leaves the slots partitioned: key 4 owns slot 3, slots
    0, 1 and 2 are free.  After [gc], key 4 still maps to index 3 while
    the slots have length 2, and slot 0 is neither free nor the value of
    a key: the slots are not partitioned any more. *)
Theorem gc_breaks_slot_partition :
  ∃ st st',
    run_from_new 10 1 3 1 one_survivor = Done st ∧
    slot_partition (vc st) ∧
    gc st = Done st' ∧
    run_from_new 10 1 3 1 (one_survivor ++ [OpGc]) = Done st' ∧
    indexes (vc st') = [(4, 3)] ∧
    len (visitorRecords (vc st')) = 2 ∧
    notUsedVisitorRecordsIndex (vc st') = [1] ∧
    ¬ slot_partition (vc st').
Proof.
  destruct (run_from_new_consistent 10 1 3 1 one_survivor)
    as (st & Hrun & Hpart & _); [lia | lia | lia | |].
  { apply quiet_without_gc. unfold one_survivor. by repeat constructor. }
  exists st. rewrite Hrun. vm_compute in Hrun. injection Hrun as <-.
  eexists. split; [done|]. split; [done|]. split; [by vm_compute|].
  split; [by vm_compute|].
  cbn [vc indexes visitorRecords notUsedVisitorRecordsIndex].
  do 3 (split; [done|]).
  intros (Hkeys & _ & _). destruct (Hkeys 4 3) as [Hrange _]; [by left|].
  unfold len in Hrange. cbn in Hrange. lia.
Qed.

(** C9, at the input where the code departs from the claim.  The run
    [survivor_in_slot_1] leaves every free slot with an empty buffer.
    After the rebuild key 2 still maps to index 1, which is now a free
    slot holding a new buffer; the next visit of key 2 is pushed into that
    buffer, so the free slot 1 holds a buffer with one event. *)
Theorem free_slot_holds_event_after_gc :
  ∃ st0 st p q,
    run_from_new 10 1 2 1 survivor_in_slot_1 = Done st0 ∧
    free_slots_empty st0 ∧
    run [OpGc; OpAllowVisit 2 13] st0 = Done st ∧
    1 ∈ notUsedVisitorRecordsIndex (vc st) ∧
    go_index (visitorRecords (vc st)) 1 = Done p ∧
    deref (store st) p = Done q ∧
    UsedSize q = Done 1 ∧
    entries q = [23] ∧
    ¬ free_slots_empty st.
Proof.
  destruct (run_from_new_consistent 10 1 2 1 survivor_in_slot_1)
    as (st0 & Hrun & _ & Hempty); [lia | lia | lia | |].
  { apply quiet_without_gc. unfold survivor_in_slot_1. by repeat constructor. }
  exists st0. rewrite Hrun. vm_compute in Hrun. injection Hrun as <-.
  do 3 eexists. split; [done|]. split; [done|]. split; [by vm_compute|].
  cbn [vc store visitorRecords notUsedVisitorRecordsIndex].
  split; [by left|]. do 4 (split; [by vm_compute|]).
  intros Hfree. destruct (Hfree 1) as (p & q & Hp & Hq & Hu); [by left|].
  vm_compute in Hp. injection Hp as <-.
  vm_compute in Hq. injection Hq as <-.
  by vm_compute in Hu.
Qed.

(** C5, at inputs where the code departs from the claim.

    With limit 2: key 2 visits at instant 5, and the event, which expires
    at instant 15, is in its buffer after the sweep and the rebuild at
    instant 12.  The rebuild leaves key 2 mapped to index 1, where the new
    slots hold a new buffer, so the visits of key 2 at instants 13 and 14
    are admitted as well.  Nothing is removed after instant 12: at instant
    14 key 2 has three admitted visits within one window of 10 time
    units, stored in two buffers, none of them expired.

    With limit 0 the first call for a key is admitted, and once the sweep
    has returned the slot of the key, whose buffer is empty, the next call
    is admitted again: no event was ever stored, none expired. *)
Theorem limit_exceeded_within_window :
  (∃ sa sb sc sd se q q',
     run_from_new 10 1 2 1
       [OpAllowVisit 1 0; OpAllowVisit 2 0; OpAllowVisit 3 0; OpAllowVisit 4 0]
     = Done sa ∧
     AllowVisit 2 5 sa = Done (sb, true) ∧
     run [OpDeleteExpiredOnce (λ _, 12); OpGc] sb = Done sc ∧
     deref (store sc) (addr 1) = Done q ∧ entries q = [15] ∧
     AllowVisit 2 13 sc = Done (sd, true) ∧
     AllowVisit 2 14 sd = Done (se, true) ∧
     deref (store se) (addr 1) = Done q ∧
     deref (store se) (addr 5) = Done q' ∧ entries q' = [23; 24] ∧
     maxVisitsNum (vc se) = 2 ∧
     14 < 5 + defaultExpiration (vc se)) ∧
  (∃ st st1 st2 st3 st4,
     new 10 1 0 1 = Done st ∧
     AllowVisit 7 0 st = Done (st1, true) ∧
     AllowVisit 7 1 st1 = Done (st2, false) ∧
     deleteExpiredOnce (λ _, 2) st2 = Done st3 ∧
     AllowVisit 7 3 st3 = Done (st4, true)).
Proof.
  split.
  - do 7 eexists. by vm_compute.
  - do 5 eexists. by vm_compute.
Qed.

(** ** The ring buffer as a queue *)

Lemma reachable_entries_length (n : Z) (q : circleQueueInt64) :
  0 ≤ n → wf n q → len (entries q) = stored q ∧ 0 ≤ stored q ≤ n.
Proof.
  intros Hn Hwf. split; [by apply (entries_length n)|by apply stored_range].
Qed.

Lemma Push_entries (n : Z) (q : circleQueueInt64) (val : Z) :
  0 ≤ n → wf n q →
  ∃ q', Push q val
        = Done (q', if decide (len (entries q) < n) then None
                    else Some queue_is_full) ∧
        wf n q' ∧
        entries q' = (if decide (len (entries q) < n) then entries q ++ [val]
                      else entries q) ∧
        (¬ len (entries q) < n → q' = q).
Proof.
  intros Hn Hwf. destruct (reachable_entries_length n q Hn Hwf) as [-> Hr].
  case_decide as Hroom.
  - destruct (Push_room n Hn q val Hwf Hroom) as (Hrun & Hwf' & _).
    exists (pushed q val). split; [done|]. split; [done|].
    split; [by apply (entries_pushed n)|done].
  - exists q. split; [apply (Push_full n Hn q val Hwf); lia|done].
Qed.

Lemma Pop_entries (n : Z) (q : circleQueueInt64) :
  0 ≤ n → wf n q →
  match entries q with
  | [] => Pop q = Done (q, 0, Some queue_is_empty)
  | e :: l => ∃ q', Pop q = Done (q', e, None) ∧ wf n q' ∧ entries q' = l
  end.
Proof.
  intros Hn Hwf. destruct (reachable_entries_length n q Hn Hwf) as [Hlen Hr].
  destruct (decide (0 < stored q)) as [Hsome | Hnone].
  - destruct (Pop_some n Hn q Hwf Hsome) as (Hrun & Hwf' & _).
    pose proof (entries_popped n Hn q Hwf Hsome) as Heq. rewrite Heq.
    by exists (popped q).
  - rewrite (entries_empty n q Hwf) by lia.
    apply (Pop_empty n Hn q Hwf). lia.
Qed.

Lemma Push_all_entries (n : Z) (vals : list Z) :
  0 ≤ n → ∀ q, wf n q → len (entries q) + len vals ≤ n →
  ∃ q', Push_all q vals = Done (q', replicate (length vals) None) ∧
        wf n q' ∧ entries q' = entries q ++ vals.
Proof.
  intros Hn. induction vals as [|val vals IH]; intros q Hwf Hroom.
  - exists q. by rewrite app_nil_r.
  - unfold len in Hroom. cbn [length] in Hroom.
    destruct (Push_entries n q val Hn Hwf) as (q1 & Hrun & Hwf1 & Hent & _).
    rewrite decide_True in Hrun by (unfold len; lia).
    rewrite decide_True in Hent by (unfold len; lia).
    destruct (IH q1 Hwf1) as (q2 & Hrun2 & Hwf2 & Hent2).
    { rewrite Hent. unfold len. rewrite length_app. cbn [length]. lia. }
    exists q2. cbn [Push_all]. rewrite Hrun. cbn [mbind outcome_bind].
    rewrite Hrun2. cbn [mbind outcome_bind replicate length].
    split; [done|]. split; [done|]. by rewrite Hent2, Hent, <- app_assoc.
Qed.

Lemma Pop_all_entries (n : Z) (k : nat) :
  0 ≤ n → ∀ q, wf n q →
  ∃ q', Pop_all q k
        = Done (q', ((λ e, (e, None)) <$> take k (entries q))
                    ++ replicate (k - length (entries q))
                         (0, Some queue_is_empty)) ∧
        wf n q' ∧ entries q' = drop k (entries q).
Proof.
  intros Hn. induction k as [|k IH]; intros q Hwf.
  - exists q. by rewrite take_0, drop_0.
  - pose proof (Pop_entries n q Hn Hwf) as HPop.
    destruct (entries q) as [|e l] eqn:Hent.
    + destruct (IH q Hwf) as (q' & Hrun & Hwf' & Hent').
      rewrite Hent in Hrun, Hent'. rewrite take_nil in Hrun.
      rewrite drop_nil in Hent'. cbn [length fmap list_fmap app] in Hrun.
      rewrite Nat.sub_0_r in Hrun.
      exists q'. cbn [Pop_all]. rewrite HPop. cbn [mbind outcome_bind].
      rewrite Hrun. cbn [mbind outcome_bind]. done.
    + destruct HPop as (q1 & HPop & Hwf1 & Hent1).
      destruct (IH q1 Hwf1) as (q' & Hrun & Hwf' & Hent').
      rewrite Hent1 in Hrun, Hent'.
      exists q'. cbn [Pop_all]. rewrite HPop. cbn [mbind outcome_bind].
      rewrite Hrun. cbn [mbind outcome_bind]. done.
Qed.

(** X1: a buffer built by [newCircleQueueInt64 n] and its methods is a
    first-in first-out queue of at most [n] events.  [Push] appends its
    value behind the events held, or, when [n] events are held, fails
    with "queue is full" and leaves the buffer as it is; [Pop] returns
    the oldest event and keeps the others in order, or, when no event is
    held, fails with "queue is empty", returns 0 and leaves the buffer
    as it is; [UsedSize] is the number of events held. *)
Theorem ring_buffer_is_fifo (n : Z) (q : circleQueueInt64) :
  0 ≤ n → reachable_queue n q →
  len (entries q) ≤ n ∧
  UsedSize q = Done (len (entries q)) ∧
  (∀ val,
     if decide (len (entries q) < n)
     then ∃ q', Push q val = Done (q', None) ∧ entries q' = entries q ++ [val]
     else Push q val = Done (q, Some queue_is_full)) ∧
  match entries q with
  | [] => Pop q = Done (q, 0, Some queue_is_empty)
  | e :: l => ∃ q', Pop q = Done (q', e, None) ∧ entries q' = l
  end.
Proof.
  intros Hn Hreach. pose proof (reachable_queue_wf n q Hn Hreach) as Hwf.
  destruct (reachable_entries_length n q Hn Hwf) as [Hlen Hr].
  split; [lia|]. split; [by rewrite Hlen; apply (UsedSize_wf n)|]. split.
  - intros val.
    destruct (Push_entries n q val Hn Hwf) as (q' & Hrun & _ & Hent & Hsame).
    case_decide as Hroom; [by exists q'|]. by rewrite <- (Hsame Hroom) at 2.
  - pose proof (Pop_entries n q Hn Hwf) as HPop.
    destruct (entries q) as [|e l]; [done|].
    destruct HPop as (q' & HPop & _ & Hent). by exists q'.
Qed.

Lemma ring_buffer_is_fifo_witness :
  let q := mkQueue 3 [10; 15; 0] 1 2 in
  len (entries q) ≤ 2 ∧
  UsedSize q = Done (len (entries q)) ∧
  (∀ val,
     if decide (len (entries q) < 2)
     then ∃ q', Push q val = Done (q', None) ∧ entries q' = entries q ++ [val]
     else Push q val = Done (q, Some queue_is_full)) ∧
  match entries q with
  | [] => Pop q = Done (q, 0, Some queue_is_empty)
  | e :: l => ∃ q', Pop q = Done (q', e, None) ∧ entries q' = l
  end.
Proof.
  apply (ring_buffer_is_fifo 2 (mkQueue 3 [10; 15; 0] 1 2)); [lia|].
  apply (reach_Pop 2 (mkQueue 3 [10; 15; 0] 0 2) _ 10 None); [|reflexivity].
  apply (reach_Push 2 (mkQueue 3 [10; 0; 0] 0 1) 15 _ None); [|reflexivity].
  apply (reach_Push 2 (mkQueue 3 [0; 0; 0] 0 0) 10 _ None); [|reflexivity].
  apply reach_new. reflexivity.
Defined.

(** X2: round trip.  On a buffer that holds the events [l] and has room
    for the values [vals], pushing [vals] one by one succeeds every time,
    and popping as many times as there are events then returns [l]
    followed by [vals], each without error, and leaves the buffer empty;
    every further [Pop] fails. *)
Theorem Push_all_Pop_all_round_trip (n : Z) (q : circleQueueInt64)
    (vals : list Z) (more : nat) :
  0 ≤ n → reachable_queue n q →
  len (entries q) + len vals ≤ n →
  ∃ q1 q2,
    Push_all q vals = Done (q1, replicate (length vals) None) ∧
    Pop_all q1 (length (entries q ++ vals) + more)
    = Done (q2, ((λ e, (e, None)) <$> entries q ++ vals)
                ++ replicate more (0, Some queue_is_empty)) ∧
    IsEmpty q2 = true.
Proof.
  intros Hn Hreach Hroom. pose proof (reachable_queue_wf n q Hn Hreach) as Hwf.
  destruct (Push_all_entries n vals Hn q Hwf Hroom) as (q1 & Hrun1 & Hwf1 & Hent1).
  destruct (Pop_all_entries n (length (entries q ++ vals) + more) Hn q1 Hwf1)
    as (q2 & Hrun2 & Hwf2 & Hent2).
  exists q1, q2. split; [done|]. rewrite Hent1 in Hrun2, Hent2.
  rewrite take_ge in Hrun2 by lia.
  replace (length (entries q ++ vals) + more - length (entries q ++ vals))%nat
    with more in Hrun2 by lia.
  split; [done|]. rewrite drop_ge in Hent2 by lia.
  rewrite (IsEmpty_wf n Hn q2 Hwf2). apply bool_decide_eq_true.
  destruct (reachable_entries_length n q2 Hn Hwf2) as [Hlen _].
  rewrite Hent2 in Hlen. by rewrite <- Hlen.
Qed.

Lemma Push_all_Pop_all_round_trip_witness :
  ∃ q1 q2,
    Push_all (mkQueue 3 [10; 15; 0] 1 2) [20] = Done (q1, [None]) ∧
    Pop_all q1 (length (entries (mkQueue 3 [10; 15; 0] 1 2) ++ [20]) + 1)
    = Done (q2, ((λ e, (e, None)) <$> entries (mkQueue 3 [10; 15; 0] 1 2) ++ [20])
                ++ [(0, Some queue_is_empty)]) ∧
    IsEmpty q2 = true.
Proof.
  apply (Push_all_Pop_all_round_trip 2 (mkQueue 3 [10; 15; 0] 1 2) [20] 1);
    [lia | | vm_compute; discriminate].
  apply (reach_Pop 2 (mkQueue 3 [10; 15; 0] 0 2) _ 10 None); [|reflexivity].
  apply (reach_Push 2 (mkQueue 3 [10; 0; 0] 0 1) 15 _ None); [|reflexivity].
  apply (reach_Push 2 (mkQueue 3 [0; 0; 0] 0 0) 10 _ None); [|reflexivity].
  apply reach_new. reflexivity.
Defined.

(** X3: [UnUsedSize] and [Len].  On a buffer built by
    [newCircleQueueInt64 n], [Len] is [n], [UnUsedSize] is [n] minus the
    number of events held, so that [UsedSize() + UnUsedSize() = Len()];
    the buffer is full exactly when [UnUsedSize] is 0, [Push] succeeds
    exactly when it is positive, and a successful [Push] lowers it by
    one. *)
Theorem UnUsedSize_is_room_left (n : Z) (q : circleQueueInt64) :
  0 ≤ n → reachable_queue n q →
  Len q = n ∧
  ∃ used free,
    UsedSize q = Done used ∧ UnUsedSize q = Done free ∧
    used + free = Len q ∧ 0 ≤ free ≤ n ∧
    free = n - len (entries q) ∧
    IsFull q = Done (bool_decide (free = 0)) ∧
    ∀ val, ∃ q' err,
      Push q val = Done (q', err) ∧ (err = None ↔ 0 < free) ∧
      UnUsedSize q' = Done (if decide (0 < free) then free - 1 else 0).
Proof.
  intros Hn Hreach. pose proof (reachable_queue_wf n q Hn Hreach) as Hwf.
  destruct (reachable_entries_length n q Hn Hwf) as [Hlen Hr].
  assert (HLen : Len q = n) by (unfold Len; destruct Hwf as [-> _]; lia).
  split; [done|]. exists (stored q), (n - stored q).
  pose proof (UsedSize_wf n Hn q Hwf) as Hused.
  split; [done|]. unfold UnUsedSize at 1. rewrite Hused. cbn [mbind outcome_bind].
  split; [destruct Hwf as [-> _]; f_equal; lia|].
  split; [lia|]. split; [lia|]. split; [lia|]. split.
  - rewrite (IsFull_wf n Hn q Hwf). f_equal. apply bool_decide_ext. lia.
  - intros val.
    destruct (Push_wf n q val Hn Hwf) as (q' & err & Hrun & Hwf' & Herr & Hst).
    exists q', err. split; [done|]. split; [rewrite Herr; lia|].
    unfold UnUsedSize. rewrite (UsedSize_wf n Hn q' Hwf').
    cbn [mbind outcome_bind]. destruct Hwf' as [-> _]. f_equal.
    rewrite Hst. repeat case_decide; lia.
Qed.

Lemma UnUsedSize_is_room_left_witness :
  let q := mkQueue 3 [10; 0; 0] 0 1 in
  Len q = 2 ∧
  ∃ used free,
    UsedSize q = Done used ∧ UnUsedSize q = Done free ∧
    used + free = Len q ∧ 0 ≤ free ≤ 2 ∧
    free = 2 - len (entries q) ∧
    IsFull q = Done (bool_decide (free = 0)) ∧
    ∀ val, ∃ q' err,
      Push q val = Done (q', err) ∧ (err = None ↔ 0 < free) ∧
      UnUsedSize q' = Done (if decide (0 < free) then free - 1 else 0).
Proof.
  apply (UnUsedSize_is_room_left 2 (mkQueue 3 [10; 0; 0] 0 1)); [lia|].
  apply (reach_Push 2 (mkQueue 3 [0; 0; 0] 0 0) 10 _ None); [|reflexivity].
  apply reach_new. reflexivity.
Defined.


(** ** Removal of the expired events *)

Lemma filter_Forall_id {A} (P : A → Prop) `{∀ x, Decision (P x)} (l : list A) :
  Forall P l → filter P l = l.
Proof.
  induction 1 as [|x l Hx Hl IH]; [done|].
  by rewrite filter_cons_True, IH.
Qed.

Lemma drop_expired_ascending (now : Z) (l : list Z) :
  ascending l → drop_expired now l = filter (λ e, now ≤ e) l.
Proof.
  induction l as [|e l IH]; [done|]. intros [Hall Hasc]. cbn [drop_expired].
  case_bool_decide as Hgone.
  - rewrite filter_cons_False by lia. by apply IH.
  - symmetry. apply filter_Forall_id. constructor; [lia|].
    eapply Forall_impl; [done|]. cbn. lia.
Qed.

Lemma ascending_filter (P : Z → Prop) `{∀ x, Decision (P x)} (l : list Z) :
  ascending l → ascending (filter P l).
Proof.
  induction l as [|e l IH]; [done|]. intros [Hall Hasc].
  destruct (decide (P e)).
  - rewrite filter_cons_True by done. split; [|by apply IH].
    apply list.Forall_forall. intros e' [_ He']%list_elem_of_filter.
    by eapply (proj1 (list.Forall_forall _ _) Hall).
  - rewrite filter_cons_False by done. by apply IH.
Qed.

Lemma drop_expired_later (now now' : Z) (l : list Z) :
  now ≤ now' → drop_expired now' (drop_expired now l) = drop_expired now' l.
Proof.
  intros Hle. induction l as [|e l IH]; [done|]. cbn [drop_expired].
  case_bool_decide as Hgone; [|done].
  rewrite IH. by rewrite bool_decide_true by lia.
Qed.

Lemma drop_expired_none (now : Z) (l : list Z) :
  Forall (λ e, now ≤ e) l → drop_expired now l = l.
Proof.
  intros Hall. destruct Hall as [|e l He _]; [done|]. cbn [drop_expired].
  by rewrite bool_decide_false by lia.
Qed.

(** A buffer is determined by its cells, its [tail] and the number of
    events it holds. *)
Lemma wf_stored_inj (n : Z) (q1 q2 : circleQueueInt64) :
  0 ≤ n → wf n q1 → wf n q2 →
  slice q1 = slice q2 → tail q1 = tail q2 → stored q1 = stored q2 → q1 = q2.
Proof.
  intros Hn Hwf1 Hwf2 Hs Ht Hst.
  rewrite (stored_cases n Hn q1 Hwf1), (stored_cases n Hn q2 Hwf2) in Hst.
  destruct Hwf1 as (Hm1 & _ & Hh1 & Ht1), Hwf2 as (Hm2 & _ & Hh2 & Ht2).
  destruct q1 as [m1 s1 h1 t1], q2 as [m2 s2 h2 t2].
  cbn [maxSize slice head tail] in *. subst.
  f_equal. repeat case_decide; lia.
Qed.

(** X5: on a buffer whose events are in the order of their expiration,
    [DeleteExpired] removes every expired event: it leaves exactly the
    events that the clock reading does not exceed, in their order. *)
Theorem DeleteExpired_purges_ascending (n now : Z) (q : circleQueueInt64) :
  0 ≤ n → reachable_queue n q → ascending (entries q) →
  ∃ q', DeleteExpired now q = Done q' ∧
        entries q' = filter (λ e, now ≤ e) (entries q) ∧
        Forall (λ e, now ≤ e) (entries q') ∧
        ascending (entries q').
Proof.
  intros Hn Hreach Hasc. pose proof (reachable_queue_wf n q Hn Hreach) as Hwf.
  destruct (DeleteExpired_spec n Hn now q Hwf) as (q' & Hrun & _ & _ & _ & Hent).
  exists q'. split; [done|].
  rewrite (drop_expired_ascending now _ Hasc) in Hent. rewrite Hent.
  split; [done|]. split; [|by apply ascending_filter].
  apply list.Forall_forall. by intros e [He _]%list_elem_of_filter.
Qed.

Lemma DeleteExpired_purges_ascending_witness :
  ∃ q', DeleteExpired 12 (mkQueue 3 [10; 15; 0] 0 2) = Done q' ∧
        entries q' = filter (λ e, 12 ≤ e) (entries (mkQueue 3 [10; 15; 0] 0 2)) ∧
        Forall (λ e, 12 ≤ e) (entries q') ∧
        ascending (entries q').
Proof.
  apply (DeleteExpired_purges_ascending 2 12 (mkQueue 3 [10; 15; 0] 0 2));
    [lia | | vm_compute; repeat constructor; discriminate].
  apply (reach_Push 2 (mkQueue 3 [10; 0; 0] 0 1) 15 _ None); [|reflexivity].
  apply (reach_Push 2 (mkQueue 3 [0; 0; 0] 0 0) 10 _ None); [|reflexivity].
  apply reach_new. reflexivity.
Defined.

(** X6: [DeleteExpired] composes.  Called at a clock reading and then at
    a later (or the same) reading, it leaves the buffer that the later
    call alone leaves, and a second call at the same reading changes
    nothing; when no event has expired the buffer is left as it is. *)
Theorem DeleteExpired_later_call_absorbs (n now now' : Z)
    (q : circleQueueInt64) :
  0 ≤ n → reachable_queue n q → now ≤ now' →
  ∃ q1 q2,
    DeleteExpired now q = Done q1 ∧
    DeleteExpired now' q1 = Done q2 ∧
    DeleteExpired now' q = Done q2 ∧
    DeleteExpired now' q2 = Done q2 ∧
    (Forall (λ e, now ≤ e) (entries q) → q1 = q).
Proof.
  intros Hn Hreach Hle. pose proof (reachable_queue_wf n q Hn Hreach) as Hwf.
  destruct (DeleteExpired_spec n Hn now q Hwf)
    as (q1 & Hrun1 & Hwf1 & Hs1 & Ht1 & Hent1).
  destruct (DeleteExpired_spec n Hn now' q1 Hwf1)
    as (q2 & Hrun2 & Hwf2 & Hs2 & Ht2 & Hent2).
  destruct (DeleteExpired_spec n Hn now' q Hwf)
    as (q3 & Hrun3 & Hwf3 & Hs3 & Ht3 & Hent3).
  destruct (DeleteExpired_spec n Hn now' q2 Hwf2)
    as (q4 & Hrun4 & Hwf4 & Hs4 & Ht4 & Hent4).
  assert (Hst : ∀ qa qb, wf n qa → wf n qb → entries qa = entries qb →
                         stored qa = stored qb).
  { intros qa qb Ha Hb Heq.
    destruct (reachable_entries_length n qa Hn Ha) as [<- _].
    destruct (reachable_entries_length n qb Hn Hb) as [<- _]. by rewrite Heq. }
  rewrite Hent1, drop_expired_later in Hent2 by done.
  assert (q3 = q2) as ->.
  { apply (wf_stored_inj n); [done..|congruence|congruence|].
    apply Hst; [done..|congruence]. }
  assert (q4 = q2) as ->.
  { apply (wf_stored_inj n); [done..|].
    apply Hst; [done..|]. rewrite Hent4, Hent2.
    by apply drop_expired_later. }
  exists q1, q2. repeat split; [done..|]. intros Hnone.
  apply (wf_stored_inj n); [done..|]. apply Hst; [done..|].
  by rewrite Hent1, drop_expired_none.
Qed.

Lemma DeleteExpired_later_call_absorbs_witness :
  ∃ q1 q2,
    DeleteExpired 12 (mkQueue 3 [10; 15; 0] 0 2) = Done q1 ∧
    DeleteExpired 20 q1 = Done q2 ∧
    DeleteExpired 20 (mkQueue 3 [10; 15; 0] 0 2) = Done q2 ∧
    DeleteExpired 20 q2 = Done q2 ∧
    (Forall (λ e, 12 ≤ e) (entries (mkQueue 3 [10; 15; 0] 0 2)) →
     q1 = mkQueue 3 [10; 15; 0] 0 2).
Proof.
  apply (DeleteExpired_later_call_absorbs 2 12 20 (mkQueue 3 [10; 15; 0] 0 2));
    [lia | | lia].
  apply (reach_Push 2 (mkQueue 3 [10; 0; 0] 0 1) 15 _ None); [|reflexivity].
  apply (reach_Push 2 (mkQueue 3 [0; 0; 0] 0 0) 10 _ None); [|reflexivity].
  apply reach_new. reflexivity.
Defined.

(** ** The controller, key by key *)

Lemma Load_Store_ne (m : syncMap) (key k index : Z) :
  k ≠ key → Load (Store m key index) k = Load m k.
Proof.
  intros Hne. induction m as [|[k0 v] m IH]; cbn [Store Load].
  - by rewrite decide_False.
  - destruct (decide (k0 = key)) as [->|Hk0]; cbn [Load].
    + by rewrite !decide_False.
    + by rewrite IH.
Qed.

Lemma Load_Delete (m : syncMap) (key : Z) : Load (Delete m key) key = None.
Proof.
  induction m as [|[k0 v] m IH]; [done|]. unfold Delete in *.
  destruct (decide (k0 = key)) as [->|Hk0].
  - by rewrite filter_cons_False by (cbn; tauto).
  - rewrite filter_cons_True by done. cbn [Load]. by rewrite decide_False.
Qed.

Lemma Load_Delete_ne (m : syncMap) (key k : Z) :
  k ≠ key → Load (Delete m key) k = Load m k.
Proof.
  intros Hne. induction m as [|[k0 v] m IH]; [done|]. unfold Delete in *.
  destruct (decide (k0 = key)) as [->|Hk0].
  - rewrite filter_cons_False by (cbn; tauto). cbn [Load].
    by rewrite decide_False.
  - rewrite filter_cons_True by done. cbn [Load]. by rewrite IH.
Qed.

Lemma Remove_first (i : Z) (free : SetInt) :
  NoDup (i :: free) → Remove (i :: free) i = free.
Proof.
  intros [Hi _]%NoDup_cons. unfold Remove.
  rewrite filter_cons_False by tauto. apply filter_Forall_id.
  apply list.Forall_forall. by intros j Hj ->.
Qed.

Lemma same_settings_refl (st : state) : same_settings st st.
Proof. by repeat split. Qed.

Lemma same_settings_trans (st1 st2 st3 : state) :
  same_settings st1 st2 → same_settings st2 st3 → same_settings st1 st3.
Proof.
  intros (? & ? & ? & ?) (? & ? & ? & ?). repeat split; congruence.
Qed.

Lemma visitor_of_frame (st st' : state) (k : Z) :
  Load (indexes (vc st')) k = Load (indexes (vc st)) k →
  (∀ i, Load (indexes (vc st)) k = Some i →
        go_index (visitorRecords (vc st')) i ≫= deref (store st')
        = go_index (visitorRecords (vc st)) i ≫= deref (store st)) →
  visitor_of k st' = visitor_of k st.
Proof.
  intros HL Hb. unfold visitor_of. rewrite HL.
  destruct (Load (indexes (vc st)) k) as [i|]; [|done]. by rewrite (Hb i).
Qed.

Lemma visitor_of_Known (key index : Z) (st : state) (p : pointer)
    (q : circleQueueInt64) :
  Load (indexes (vc st)) key = Some index →
  go_index (visitorRecords (vc st)) index = Done p →
  deref (store st) p = Done q →
  visitor_of key st = Known (entries q).
Proof.
  intros HL Hp Hq. unfold visitor_of. rewrite HL, Hp.
  cbn [mbind outcome_bind]. by rewrite Hq.
Qed.

Lemma slot_write_other (records : list pointer) (h : heap) (index i : Z)
    (p : pointer) (q' : circleQueueInt64) :
  NoDup records → go_index records index = Done p → i ≠ index →
  go_index records i ≫= deref (write h p q') = go_index records i ≫= deref h.
Proof.
  intros Hnd Hp Hne.
  destruct (go_index records i) as [p'|] eqn:Hp'; cbn [mbind outcome_bind];
    [|done].
  apply deref_write_ne. intros ->. apply Hne. by eapply go_index_inj.
Qed.

(** The buffer of a key that is in the index of a consistent state. *)
Lemma consistent_key_buffer (key index : Z) (st : state) :
  consistent st → Load (indexes (vc st)) key = Some index →
  ∃ p q, 0 ≤ index < len (visitorRecords (vc st)) ∧
         (index ∉ notUsedVisitorRecordsIndex (vc st)) ∧
         go_index (visitorRecords (vc st)) index = Done p ∧
         deref (store st) p = Done q ∧ wf (maxVisitsNum (vc st)) q ∧
         visitor_of key st = Known (entries q).
Proof.
  intros Hc HLoad. pose proof (Load_Some_elem _ _ _ HLoad) as Hkey.
  destruct (slots_partition st Hc) as (Hp1 & _ & _).
  destruct (Hp1 _ _ Hkey) as [Hrange Hnotfree].
  destruct (go_index_in_range _ _ Hrange) as [p Hp].
  destruct (slots_buffers st Hc p (go_index_elem _ _ _ Hp)) as (q & Hq & Hwf).
  exists p, q. do 5 (split; [done|]).
  by apply (visitor_of_Known key index st p q).
Qed.

(** The buffer of a free slot of a consistent state. *)
Lemma consistent_free_buffer (index : Z) (st : state) :
  consistent st → index ∈ notUsedVisitorRecordsIndex (vc st) →
  ∃ p q, (∀ k, (k, index) ∉ indexes (vc st)) ∧
         go_index (visitorRecords (vc st)) index = Done p ∧
         deref (store st) p = Done q ∧ wf (maxVisitsNum (vc st)) q ∧
         entries q = [].
Proof.
  intros Hc Hin. pose proof (limit_nonneg st Hc) as Hl.
  destruct (slots_partition st Hc) as (_ & Hp2 & _).
  destruct (Hp2 _ Hin) as [Hrange Hnokey].
  destruct (free_empty st Hc index Hin) as (p & q & Hp & Hq & Hused).
  destruct (slots_buffers st Hc p (go_index_elem _ _ _ Hp)) as (q0 & Hq0 & Hwf).
  assert (q0 = q) as -> by congruence.
  exists p, q. do 4 (split; [done|]).
  apply (entries_empty (maxVisitsNum (vc st)) q Hwf).
  rewrite (UsedSize_wf _ Hl q Hwf) in Hused. congruence.
Qed.

Lemma consistent_not_Dangling (key : Z) (st : state) :
  consistent st → visitor_of key st ≠ Dangling.
Proof.
  intros Hc. destruct (Load (indexes (vc st)) key) as [index|] eqn:HLoad.
  - destruct (consistent_key_buffer key index st Hc HLoad)
      as (p & q & _ & _ & _ & _ & _ & ->). done.
  - unfold visitor_of. by rewrite HLoad.
Qed.

Lemma visitor_of_Unknown (key : Z) (st : state) :
  visitor_of key st = Unknown ↔ Load (indexes (vc st)) key = None.
Proof.
  unfold visitor_of. destruct (Load (indexes (vc st)) key) as [index|];
    [|done].
  split; [|done]. by destruct (go_index _ index ≫= deref (store st)).
Qed.

(** What [AllowVisit] does in a consistent state, read on the visitors. *)
Lemma AllowVisit_spec (key now : Z) (st : state) :
  consistent st →
  let limit := maxVisitsNum (vc st) in
  let stamp := now + defaultExpiration (vc st) in
  ∃ st',
    consistent st' ∧ same_settings st st' ∧
    (∀ k, k ≠ key → visitor_of k st' = visitor_of k st) ∧
    match visitor_of key st with
    | Known l =>
        AllowVisit key now st = Done (st', bool_decide (len l < limit)) ∧
        visitor_of key st'
        = Known (if decide (len l < limit) then l ++ [stamp] else l) ∧
        vc st' = vc st ∧ (¬ len l < limit → st' = st)
    | Unknown =>
        AllowVisit key now st = Done (st', true) ∧
        visitor_of key st'
        = Known (if decide (0 < limit) then [stamp] else []) ∧
        match notUsedVisitorRecordsIndex (vc st) with
        | index :: free =>
            Load (indexes (vc st')) key = Some index ∧
            notUsedVisitorRecordsIndex (vc st') = free ∧
            visitorRecords (vc st') = visitorRecords (vc st)
        | [] =>
            Load (indexes (vc st')) key
            = Some (len (visitorRecords (vc st))) ∧
            notUsedVisitorRecordsIndex (vc st') = [] ∧
            len (visitorRecords (vc st'))
            = len (visitorRecords (vc st)) + 1
        end
    | Dangling => False
    end.
Proof.
  intros Hc limit stamp. subst limit stamp. pose proof (limit_nonneg st Hc) as Hl.
  destruct (add_consistent key now st Hc) as (st' & err & Hadd & Hc').
  exists st'. split; [done|].
  destruct (Load (indexes (vc st)) key) as [index|] eqn:HLoad.
  - destruct (consistent_key_buffer key index st Hc HLoad)
      as (p & q & Hrange & Hnotfree & Hp & Hq & Hwf & Hvis).
    destruct (Push_entries _ q (now + defaultExpiration (vc st)) Hl Hwf)
      as (q' & HPush & Hwf' & Hent & Hsame).
    rewrite (add_known key now st index p q) in Hadd by done.
    rewrite HPush in Hadd. cbn [mbind outcome_bind] in Hadd.
    injection Hadd as <- <-. split; [by repeat split|]. split.
    + intros k Hk. apply visitor_of_frame; [done|]. simpl_state.
      intros i Hi. apply (slot_write_other _ _ index); [apply Hc | done |].
      intros ->. apply Hk.
      apply (same_index_same_key (indexes (vc st)) k key index);
        [apply Hc | by apply Load_Some_elem..].
    + rewrite Hvis. split; [|split; [|split; [done|]]].
      * unfold AllowVisit. rewrite (add_known key now st index p q) by done.
        rewrite HPush. cbn [mbind outcome_bind].
        apply f_equal, f_equal, bool_decide_ext. by case_decide.
      * rewrite <- Hent.
        apply (visitor_of_Known key index _ p q'); simpl_state; [done..|].
        by apply (deref_write_same _ _ q).
      * intros Hfull. rewrite (Hsame Hfull), (write_deref_id _ _ _ Hq).
        by destruct st.
  - assert (Hvis : visitor_of key st = Unknown).
    { by apply visitor_of_Unknown. }
    rewrite Hvis. unfold AllowVisit. unfold add, Push_at in Hadd |- *.
    rewrite HLoad in Hadd |- *.
    destruct (notUsedVisitorRecordsIndex (vc st)) as [|index free] eqn:Hfree.
    + destruct (newCircleQueueInt64_wf _ Hl) as (q0 & Hq0 & Hwf0 & Hst0 & _).
      destruct (Push_entries _ q0 (now + defaultExpiration (vc st)) Hl Hwf0)
        as (q' & HPush & Hwf' & Hent & _).
      rewrite (entries_empty _ q0 Hwf0 Hst0) in Hent.
      change (len []) with 0 in Hent. cbn [app] in Hent.
      rewrite Hq0 in Hadd |- *.
      cbn [mbind outcome_bind] in Hadd |- *. rewrite HPush in Hadd |- *.
      cbn [mbind outcome_bind] in Hadd |- *. injection Hadd as <- <-.
      simpl_state. split; [by repeat split|].
      assert (HLoad' :
        Load (Store (indexes (vc st)) key
                (len (visitorRecords (vc st) ++ [addr (length (store st))]) - 1))
          key = Some (len (visitorRecords (vc st)))).
      { rewrite Load_Store. f_equal. unfold len. rewrite length_app.
        cbn [length]. lia. }
      split; [|split; [done|split; [|split; [done|split; [done|]]]]].
      * intros k Hk. apply visitor_of_frame; simpl_state.
        { by apply Load_Store_ne. }
        intros i Hi.
        destruct (consistent_key_buffer k i st Hc Hi)
          as (p & q & Hrange & _ & Hp & Hq & _).
        rewrite Hp. apply go_index_Done in Hp as [Hi0 Hp].
        assert (go_index (visitorRecords (vc st) ++ [addr (length (store st))]) i
                = Done p) as ->.
        { apply go_index_Done. split; [done|]. by apply lookup_app_l_Some. }
        cbn [mbind outcome_bind]. rewrite Hq. by apply deref_app.
      * rewrite <- Hent.
        apply (visitor_of_Known key (len (visitorRecords (vc st))) _
                 (addr (length (store st))) q'); simpl_state; [done | |].
        -- apply go_index_Done. unfold len. split; [lia|].
           rewrite Nat2Z.id. by rewrite lookup_app_r, Nat.sub_diag.
        -- cbn [deref]. by rewrite lookup_app_r, Nat.sub_diag.
      * unfold len. rewrite length_app. cbn [length]. lia.
    + assert (Hin : index ∈ notUsedVisitorRecordsIndex (vc st))
        by (rewrite Hfree; by left).
      destruct (consistent_free_buffer index st Hc Hin)
        as (p & q & Hnokey & Hp & Hq & Hwf & Hempty).
      destruct (Push_entries _ q (now + defaultExpiration (vc st)) Hl Hwf)
        as (q' & HPush & Hwf' & Hent & _).
      rewrite Hempty in Hent. change (len []) with 0 in Hent.
      cbn [app] in Hent.
      rewrite Hp in Hadd |- *. cbn [mbind outcome_bind] in Hadd |- *.
      rewrite Hq in Hadd |- *. cbn [mbind outcome_bind] in Hadd |- *.
      rewrite HPush in Hadd |- *. cbn [mbind outcome_bind] in Hadd |- *.
      injection Hadd as <- <-. simpl_state. split; [by repeat split|].
      split; [|split; [done|split; [|split; [apply Load_Store|split; [|done]]]]].
      * intros k Hk. apply visitor_of_frame; simpl_state.
        { by apply Load_Store_ne. }
        intros i Hi. apply (slot_write_other _ _ index); [apply Hc | done |].
        intros ->. by apply (Hnokey k), Load_Some_elem.
      * rewrite <- Hent.
        apply (visitor_of_Known key index _ p q'); simpl_state;
          [apply Load_Store | done |]. by apply (deref_write_same _ _ q).
      * apply Remove_first. rewrite <- Hfree. apply Hc.
Qed.

(** A run from [new] without [gc] ends in a consistent state. *)
Lemma run_new_state_consistent (defaultExpiration cleanupInterval : Z)
    (maxVisitsNum maximumNumberOfOnlineUsers : Z) (ops : list op)
    (st : state) :
  0 ≤ maxVisitsNum → 0 ≤ maximumNumberOfOnlineUsers →
  Forall (λ o, o ≠ OpGc) ops →
  run ops (new_state defaultExpiration cleanupInterval maxVisitsNum
             maximumNumberOfOnlineUsers) = Done st →
  consistent st.
Proof.
  intros Hl Hu Hops Hrun.
  destruct (run_consistent ops _
              (new_state_consistent defaultExpiration cleanupInterval _ _ Hl Hu)
              (quiet_without_gc ops Hops _)) as (st' & Hrun' & Hc).
  congruence.
Qed.

Lemma two_visitors_state_consistent : consistent two_visitors_state.
Proof.
  apply (run_new_state_consistent 10 1 2 3 two_visitors); [lia | lia | | done].
  by repeat constructor.
Qed.











(** ** The sweep, key by key *)

Lemma elem_Load (m : syncMap) (k i : Z) :
  NoDup (fst <$> m) → (k, i) ∈ m → Load m k = Some i.
Proof.
  intros Hnd Hki. destruct (Load m k) as [j|] eqn:HLoad.
  - f_equal. apply (same_key_same_index m k j i); [done | | done].
    by apply Load_Some_elem.
  - apply Load_None_fresh in HLoad. destruct HLoad.
    apply list_elem_of_fmap. by exists (k, i).
Qed.

Lemma Load_notin (m : syncMap) (k : Z) : k ∉ fst <$> m → Load m k = None.
Proof.
  intros Hk. destruct (Load m k) as [j|] eqn:HLoad; [|done].
  destruct Hk. apply list_elem_of_fmap. exists (k, j).
  split; [done|]. by apply Load_Some_elem.
Qed.

Lemma drop_expired_all (now : Z) (l : list Z) :
  Forall (λ e, e < now) l → drop_expired now l = [].
Proof.
  induction 1 as [|e l He Hl IH]; [done|]. cbn [drop_expired].
  by rewrite bool_decide_true by lia.
Qed.

(** One step of the sweep on an entry of the index, read on the
    visitors. *)
Lemma deleteExpiredOnce_body_spec (now : Z → Z) (st : state) (k index : Z) :
  consistent st → (k, index) ∈ indexes (vc st) →
  ∃ st',
    deleteExpiredOnce_body now st (k, index) = Done st' ∧
    consistent st' ∧ same_settings st st' ∧
    visitorRecords (vc st') = visitorRecords (vc st) ∧
    (indexes (vc st') = indexes (vc st) ∨
     indexes (vc st') = Delete (indexes (vc st)) k) ∧
    visitor_of k st' = swept (now k) (visitor_of k st) ∧
    (∀ k', k' ≠ k → visitor_of k' st' = visitor_of k' st).
Proof.
  intros Hc Hkey. pose proof (limit_nonneg st Hc) as Hl.
  destruct (deleteExpiredOnce_body_consistent now st k index Hc Hkey)
    as (st' & Hrun & Hc' & Hidx).
  exists st'. split; [done|]. split; [done|].
  pose proof (elem_Load _ _ _ (keys_NoDup st Hc) Hkey) as HLoad.
  destruct (consistent_key_buffer k index st Hc HLoad)
    as (p & q & Hrange & Hnotfree & Hp & Hq & Hwf & Hvis).
  destruct (DeleteExpired_spec _ Hl (now k) q Hwf)
    as (q' & Hdel & Hwf' & _ & _ & Hent).
  destruct (reachable_entries_length _ q' Hl Hwf') as [Hlen _].
  assert (Hother : ∀ k' i, k' ≠ k → Load (indexes (vc st)) k' = Some i →
            go_index (visitorRecords (vc st)) i ≫= deref (write (store st) p q')
            = go_index (visitorRecords (vc st)) i ≫= deref (store st)).
  { intros k' i Hk' Hi. apply (slot_write_other _ _ index); [apply Hc|done|].
    intros ->. apply Hk'.
    apply (same_index_same_key (indexes (vc st)) k' k index);
      [apply Hc | by apply Load_Some_elem | done]. }
  unfold deleteExpiredOnce_body, DeleteExpired_at, Size_at, Size in Hrun.
  rewrite bool_decide_true in Hrun by lia. rewrite Hp in Hrun.
  cbn [mbind outcome_bind] in Hrun. rewrite Hq in Hrun.
  cbn [mbind outcome_bind] in Hrun. rewrite Hdel in Hrun.
  cbn [mbind outcome_bind] in Hrun.
  rewrite (deref_write_same _ _ q q') in Hrun by done.
  cbn [mbind outcome_bind] in Hrun.
  rewrite (UsedSize_wf _ Hl q' Hwf') in Hrun. cbn [mbind outcome_bind] in Hrun.
  rewrite Hvis. cbn [swept]. rewrite <- Hent.
  case_bool_decide as Hempty; injection Hrun as <-; simpl_state.
  - split; [by repeat split|]. split; [done|]. split; [by right|].
    assert (entries q' = []) as ->.
    { apply length_zero_iff_nil. unfold len in Hlen. lia. }
    split.
    + apply visitor_of_Unknown. simpl_state. apply Load_Delete.
    + intros k' Hk'. apply visitor_of_frame; simpl_state.
      * by apply Load_Delete_ne.
      * intros i Hi. by apply (Hother k').
  - split; [by repeat split|]. split; [done|]. split; [by left|]. split.
    + destruct (entries q') as [|e l'] eqn:Hq'.
      { unfold len in Hlen. cbn [length] in Hlen. lia. }
      rewrite <- Hq'. apply (visitor_of_Known k index _ p q'); simpl_state;
        [done | done |]. by apply (deref_write_same _ _ q).
    + intros k' Hk'. apply visitor_of_frame; simpl_state; [done|].
      intros i Hi. by apply (Hother k').
Qed.

Lemma deleteExpiredOnce_loop_spec (now : Z → Z) (l : syncMap) :
  ∀ st, consistent st → NoDup (fst <$> l) →
        (∀ kv, kv ∈ l → kv ∈ indexes (vc st)) →
        ∃ st',
          for_each (deleteExpiredOnce_body now) l st = Done st' ∧
          consistent st' ∧ same_settings st st' ∧
          visitorRecords (vc st') = visitorRecords (vc st) ∧
          (∀ k, k ∈ fst <$> l →
                visitor_of k st' = swept (now k) (visitor_of k st)) ∧
          (∀ k, k ∉ fst <$> l → visitor_of k st' = visitor_of k st).
Proof.
  induction l as [|[k index] l IH]; intros st Hc Hnd Hsub.
  - exists st. split; [done|]. split; [done|].
    split; [apply same_settings_refl|]. split; [done|].
    split; [|done]. intros k Hk. by apply elem_of_nil in Hk.
  - cbn [fmap list_fmap fst] in Hnd |- *. apply NoDup_cons in Hnd as [Hk Hnd].
    destruct (deleteExpiredOnce_body_spec now st k index Hc)
      as (st1 & Hrun & Hc1 & Hs1 & Hrec1 & Hidx & Hvis & Hframe);
      [apply Hsub; by left|].
    destruct (IH st1 Hc1 Hnd) as (st2 & Hrun2 & Hc2 & Hs2 & Hrec2 & Hin & Hout).
    { intros kv Hkv. assert (fst kv ≠ k) as Hne.
      { intros <-. apply Hk. by apply list_elem_of_fmap_2. }
      destruct Hidx as [-> | ->].
      - apply Hsub. by right.
      - apply elem_of_Delete. split; [|done]. apply Hsub. by right. }
    exists st2. cbn [for_each]. rewrite Hrun. cbn [mbind outcome_bind].
    split; [done|]. split; [done|].
    split; [by eapply same_settings_trans|]. split; [congruence|]. split.
    + intros k' [-> | Hk']%elem_of_cons.
      * by rewrite (Hout k Hk).
      * rewrite (Hin k' Hk'). rewrite Hframe; [done|]. by intros ->.
    + intros k' [Hne Hk']%not_elem_of_cons. by rewrite (Hout k' Hk'), Hframe.
Qed.

Lemma deleteExpiredOnce_spec (now : Z → Z) (st : state) :
  consistent st →
  ∃ st',
    deleteExpiredOnce now st = Done st' ∧
    consistent st' ∧ same_settings st st' ∧
    visitorRecords (vc st') = visitorRecords (vc st) ∧
    ∀ k, visitor_of k st' = swept (now k) (visitor_of k st).
Proof.
  intros Hc.
  destruct (deleteExpiredOnce_loop_spec now (indexes (vc st)) st Hc)
    as (st' & Hrun & Hc' & Hs & Hrec & Hin & Hout); [apply Hc | done |].
  exists st'. do 4 (split; [done|]). intros k.
  destruct (decide (k ∈ fst <$> indexes (vc st))) as [Hk | Hk]; [by apply Hin|].
  rewrite (Hout k Hk).
  apply Load_notin, visitor_of_Unknown in Hk. by rewrite Hk.
Qed.

(** X11: the sweep, in a consistent state.  [deleteExpiredOnce] returns
    without panic and treats every key in the same way: it removes the
    events of the key from the oldest one up to the first one that the
    clock reading of the key does not exceed; a key that is left without
    event is forgotten, as if it had never visited, and a key that keeps
    an event keeps its events in order.  The pool keeps its slots, and
    the state stays consistent. *)
Theorem deleteExpiredOnce_sweeps_every_key (now : Z → Z) (st : state) :
  consistent st →
  ∃ st',
    deleteExpiredOnce now st = Done st' ∧
    consistent st' ∧
    visitorRecords (vc st') = visitorRecords (vc st) ∧
    ∀ k, visitor_of k st' = swept (now k) (visitor_of k st).
Proof.
  intros Hc.
  destruct (deleteExpiredOnce_spec now st Hc)
    as (st' & Hrun & Hc' & _ & Hrec & Hvis).
  by exists st'.
Qed.

Lemma deleteExpiredOnce_sweeps_every_key_witness :
  ∃ st',
    deleteExpiredOnce (λ _, 12) two_visitors_state = Done st' ∧
    consistent st' ∧
    visitorRecords (vc st') = visitorRecords (vc two_visitors_state) ∧
    ∀ k, visitor_of k st' = swept 12 (visitor_of k two_visitors_state).
Proof.
  apply (deleteExpiredOnce_sweeps_every_key (λ _, 12) two_visitors_state).
  apply two_visitors_state_consistent.
Defined.



(** ** The order of the events *)









Lemma quiet_check_quiet (ops : list op) :
  ∀ st, quiet_check ops st = true → quiet ops st.
Proof.
  induction ops as [|o ops IH]; intros st Hcheck; [done|].
  cbn [quiet_check] in Hcheck. apply andb_true_iff in Hcheck as [Ho Hrest].
  split.
  - intros [-> Hneed]. by rewrite Hneed in Ho.
  - intros st' Hrun. rewrite Hrun in Hrest. by apply IH.
Qed.



(** ** The compaction *)

Lemma pool_valid_elem (st : state) (p : pointer) :
  pool_valid st → p ∈ visitorRecords (vc st) →
  ∃ q, deref (store st) p = Done q ∧ wf (maxVisitsNum (vc st)) q.
Proof.
  intros [_ Hall] Hp.
  pose proof (proj1 (list.Forall_forall _ _) Hall p Hp) as Hq. cbn beta in Hq.
  destruct (deref (store st) p) as [q|]; [by exists q|done].
Qed.

Lemma pool_valid_intro (st : state) :
  0 ≤ maxVisitsNum (vc st) →
  (∀ p, p ∈ visitorRecords (vc st) →
        ∃ q, deref (store st) p = Done q ∧ wf (maxVisitsNum (vc st)) q) →
  pool_valid st.
Proof.
  intros Hl Hall. split; [done|]. apply list.Forall_forall. intros p Hp.
  by destruct (Hall p Hp) as (q & -> & Hwf).
Qed.

Lemma consistent_pool_valid (st : state) : consistent st → pool_valid st.
Proof.
  intros Hc. apply pool_valid_intro; [apply Hc|]. apply Hc.
Qed.

Lemma fresh_queue_wf (n : Z) : 0 ≤ n → wf n (fresh_queue n).
Proof.
  intros Hn. destruct (newCircleQueueInt64_wf n Hn) as (q & Hq & Hwf & _).
  rewrite newCircleQueueInt64_fresh in Hq by lia. by injection Hq as <-.
Qed.

Lemma consistent_newLen (st : state) :
  consistent st → len (indexes (vc st)) ≤ gc_newLen (vc st).
Proof.
  intros Hc. pose proof (consistent_count st Hc) as Hcount.
  unfold gc_newLen. rewrite <- Hcount. unfold len. case_bool_decide; lia.
Qed.

(** X14: when [gc] rebuilds.  In a consistent state [needGc] holds
    exactly when the pool has at least twice as many slots as the
    expected number of users and fewer than a third of its slots belong
    to a key; otherwise [gc] leaves the state as it is. *)
Theorem needGc_few_keys_in_large_pool (st : state) :
  consistent st →
  needGc (vc st)
  = bool_decide (2 * maximumNumberOfOnlineUsers (vc st)
                 ≤ len (visitorRecords (vc st))
                 ∧ 3 * len (indexes (vc st)) < len (visitorRecords (vc st))) ∧
  (needGc (vc st) = false → gc st = Done st).
Proof.
  intros Hc. pose proof (consistent_count st Hc) as Hcount. split.
  - unfold needGc. rewrite <- Hcount.
    repeat case_bool_decide; (done || lia).
  - intros Hneed. unfold gc. by rewrite Hneed.
Qed.

Lemma needGc_few_keys_in_large_pool_witness :
  needGc (vc two_visitors_state)
  = bool_decide (2 * maximumNumberOfOnlineUsers (vc two_visitors_state)
                 ≤ len (visitorRecords (vc two_visitors_state))
                 ∧ 3 * len (indexes (vc two_visitors_state))
                   < len (visitorRecords (vc two_visitors_state))) ∧
  (needGc (vc two_visitors_state) = false →
   gc two_visitors_state = Done two_visitors_state).
Proof.
  apply (needGc_few_keys_in_large_pool two_visitors_state).
  apply two_visitors_state_consistent.
Defined.

(** X15: what a rebuild does, in a consistent state that [needGc]
    accepts.  [gc] returns without panic.  It leaves every buffer in
    place and [indexes] and the settings untouched; the new slot [j]
    holds the pointer of the old slot of the [j]-th key that [Range]
    visits, so the buffers of the keys are moved by reference; the free
    set is made of all the slots behind those, each with a new, empty
    buffer; and every new slot points to a buffer of capacity
    [maxVisitsNum]. *)
Theorem gc_rebuild_moves_buffers (st : state) :
  consistent st → needGc (vc st) = true →
  ∃ st',
    gc st = Done st' ∧
    indexes (vc st') = indexes (vc st) ∧ same_settings st st' ∧
    (∀ p q, deref (store st) p = Done q → deref (store st') p = Done q) ∧
    (∀ j k i, indexes (vc st) !! j = Some (k, i) →
       ∃ p, go_index (visitorRecords (vc st)) i = Done p ∧
            visitorRecords (vc st') !! j = Some p) ∧
    notUsedVisitorRecordsIndex (vc st')
    = seqZ (len (indexes (vc st)))
        (len (visitorRecords (vc st')) - len (indexes (vc st))) ∧
    free_slots_empty st' ∧
    pool_valid st'.
Proof.
  intros Hc Hneed. pose proof (limit_nonneg st Hc) as Hl.
  pose proof (consistent_newLen st Hc) as Hlen.
  exists (gc_state st). split; [by rewrite gc_consistent_Done, Hneed|].
  split; [done|]. split; [by repeat split|].
  assert (Hmoved : ∀ kv, kv ∈ indexes (vc st) →
            ∃ p q, go_index (visitorRecords (vc st)) (snd kv) = Done p ∧
                   default null (visitorRecords (vc st) !! Z.to_nat (snd kv)) = p ∧
                   deref (store st) p = Done q ∧ wf (maxVisitsNum (vc st)) q).
  { intros [k i] Hki. cbn [snd].
    pose proof (elem_Load _ _ _ (keys_NoDup st Hc) Hki) as HLoad.
    destruct (consistent_key_buffer k i st Hc HLoad)
      as (p & q & _ & _ & Hp & Hq & Hwf & _).
    exists p, q. split; [done|]. split; [|done].
    apply go_index_Done in Hp as [_ ->]. done. }
  split; [|split; [|split; [|split]]].
  - intros p q Hq. unfold gc_state. simpl_state. by apply deref_app.
  - intros j k i Hj.
    destruct (Hmoved (k, i) (list_elem_of_lookup_2 _ _ _ Hj))
      as (p & q & Hp & Hdef & _).
    exists p. split; [done|]. unfold gc_state. simpl_state.
    apply lookup_app_l_Some. unfold moved_pointers.
    rewrite list_lookup_fmap, Hj. cbn [fmap option_fmap option_map snd] in *.
    by rewrite Hdef.
  - unfold gc_state. simpl_state. unfold len, moved_pointers in *.
    rewrite length_app, !length_fmap, length_seq. f_equal. lia.
  - intros i Hi.
    destruct (gc_state_free_fresh st i Hl Hi) as (a & Hp & _ & Hq & Hused).
    by exists (addr a), (fresh_queue (maxVisitsNum (vc st))).
  - apply pool_valid_intro; [done|]. unfold gc_state. simpl_state.
    intros p [Hp | Hp]%elem_of_app.
    + unfold moved_pointers in Hp.
      apply list_elem_of_fmap in Hp as (kv & -> & Hkv).
      destruct (Hmoved kv Hkv) as (p & q & _ & -> & Hq & Hwf).
      exists q. split; [by apply deref_app|done].
    + apply list_elem_of_fmap in Hp as (a & -> & Ha%elem_of_seq).
      exists (fresh_queue (maxVisitsNum (vc st))).
      split; [|by apply fresh_queue_wf]. cbn [deref].
      rewrite lookup_app_r by lia. by rewrite lookup_replicate_2 by lia.
Qed.

Lemma gc_rebuild_moves_buffers_witness :
  ∃ st',
    gc two_survivors_state = Done st' ∧
    indexes (vc st') = indexes (vc two_survivors_state) ∧
    same_settings two_survivors_state st' ∧
    (∀ p q, deref (store two_survivors_state) p = Done q →
            deref (store st') p = Done q) ∧
    (∀ j k i, indexes (vc two_survivors_state) !! j = Some (k, i) →
       ∃ p, go_index (visitorRecords (vc two_survivors_state)) i = Done p ∧
            visitorRecords (vc st') !! j = Some p) ∧
    notUsedVisitorRecordsIndex (vc st')
    = seqZ (len (indexes (vc two_survivors_state)))
        (len (visitorRecords (vc st'))
         - len (indexes (vc two_survivors_state))) ∧
    free_slots_empty st' ∧
    pool_valid st'.
Proof.
  apply (gc_rebuild_moves_buffers two_survivors_state); [|reflexivity].
  apply (run_new_state_consistent 10 1 2 3 two_survivors); [lia | lia | | done].
  by repeat constructor.
Defined.

(** ** The sweep on a pool with stale indexes *)

Lemma pool_valid_write (st : state) (this : Visitercontrol) (p : pointer)
    (q' : circleQueueInt64) :
  pool_valid st → p ∈ visitorRecords (vc st) →
  wf (maxVisitsNum (vc st)) q' →
  maxVisitsNum this = maxVisitsNum (vc st) →
  visitorRecords this = visitorRecords (vc st) →
  pool_valid (mkState (write (store st) p q') this).
Proof.
  intros Hv Hp Hwf Hmax Hrec. apply pool_valid_intro; simpl_state.
  - rewrite Hmax. apply Hv.
  - rewrite Hmax, Hrec. intros p' Hp'.
    destruct (pool_valid_elem st p Hv Hp) as (q & Hq & _).
    destruct (decide (p = p')) as [<- | Hne].
    + exists q'. split; [by apply (deref_write_same _ _ q)|done].
    + rewrite deref_write_ne by done. by apply pool_valid_elem.
Qed.

(** One step of the sweep on any entry, whatever its index. *)
Lemma deleteExpiredOnce_body_valid (now : Z → Z) (st : state) (k index : Z) :
  pool_valid st →
  ∃ st',
    deleteExpiredOnce_body now st (k, index) = Done st' ∧
    pool_valid st' ∧
    visitorRecords (vc st') = visitorRecords (vc st) ∧
    (indexes (vc st') = indexes (vc st) ∧
     0 ≤ index < len (visitorRecords (vc st))
     ∨ indexes (vc st') = Delete (indexes (vc st)) k).
Proof.
  intros Hv. pose proof (proj1 Hv) as Hl. unfold deleteExpiredOnce_body.
  case_bool_decide as Hrange.
  - destruct (go_index_in_range (visitorRecords (vc st)) index) as [p Hp];
      [lia|].
    pose proof (go_index_elem _ _ _ Hp) as Hin.
    destruct (pool_valid_elem st p Hv Hin) as (q & Hq & Hwf).
    destruct (DeleteExpired_spec _ Hl (now k) q Hwf) as (q' & Hdel & Hwf' & _).
    unfold DeleteExpired_at, Size_at, Size. rewrite Hp.
    cbn [mbind outcome_bind]. rewrite Hq. cbn [mbind outcome_bind].
    rewrite Hdel. cbn [mbind outcome_bind].
    rewrite (deref_write_same _ _ q q') by done. cbn [mbind outcome_bind].
    rewrite (UsedSize_wf _ Hl q' Hwf'). cbn [mbind outcome_bind].
    case_bool_decide as Hempty; eexists; (split; [done|]); simpl_state.
    + split; [by apply pool_valid_write|]. split; [done|by right].
    + split; [by apply pool_valid_write|]. split; [done|left; split; [done|lia]].
  - eexists. split; [done|]. simpl_state. split; [|split; [done|by right]].
    apply pool_valid_intro; [done|]. intros p Hp. by apply pool_valid_elem.
Qed.

Lemma deleteExpiredOnce_loop_valid (now : Z → Z) (l : syncMap) :
  ∀ st, pool_valid st →
        ∃ st',
          for_each (deleteExpiredOnce_body now) l st = Done st' ∧
          pool_valid st' ∧
          visitorRecords (vc st') = visitorRecords (vc st) ∧
          ∀ kv, kv ∈ indexes (vc st') →
                kv ∈ indexes (vc st) ∧
                (kv ∈ l → 0 ≤ snd kv < len (visitorRecords (vc st))).
Proof.
  induction l as [|[k index] l IH]; intros st Hv.
  - exists st. do 3 (split; [done|]). intros kv Hkv. split; [done|].
    intros Hnil. by apply elem_of_nil in Hnil.
  - destruct (deleteExpiredOnce_body_valid now st k index Hv)
      as (st1 & Hrun1 & Hv1 & Hrec1 & Hidx).
    destruct (IH st1 Hv1) as (st2 & Hrun2 & Hv2 & Hrec2 & Hsub).
    exists st2. cbn [for_each]. rewrite Hrun1. cbn [mbind outcome_bind].
    split; [done|]. split; [done|]. split; [congruence|].
    intros kv Hkv. destruct (Hsub kv Hkv) as [Hkv1 Hl]. rewrite Hrec1 in Hl.
    destruct Hidx as [[Heq Hrange] | Heq]; rewrite Heq in Hkv1.
    + split; [done|]. by intros [-> | Hkv']%elem_of_cons; [|apply Hl].
    + apply elem_of_Delete in Hkv1 as [Hkv1 Hne]. split; [done|].
      intros [-> | Hkv']%elem_of_cons; [done|by apply Hl].
Qed.

(** X16: the sweep does not need a consistent index.  As soon as every
    slot points to a buffer of capacity [maxVisitsNum], whatever
    [indexes] and the free set hold, [deleteExpiredOnce] returns without
    panic, keeps the slots and their buffers valid, adds no entry to
    [indexes], and leaves no entry whose index is outside the pool: the
    keys of such entries are forgotten. *)
Theorem deleteExpiredOnce_drops_stale_indexes (now : Z → Z) (st : state) :
  pool_valid st →
  ∃ st',
    deleteExpiredOnce now st = Done st' ∧
    pool_valid st' ∧
    visitorRecords (vc st') = visitorRecords (vc st) ∧
    ∀ k index, (k, index) ∈ indexes (vc st') →
               (k, index) ∈ indexes (vc st) ∧
               0 ≤ index < len (visitorRecords (vc st')).
Proof.
  intros Hv.
  destruct (deleteExpiredOnce_loop_valid now (indexes (vc st)) st Hv)
    as (st' & Hrun & Hv' & Hrec & Hsub).
  exists st'. do 3 (split; [done|]). intros k index Hk.
  destruct (Hsub (k, index) Hk) as [Hin Hrange]. split; [done|].
  rewrite Hrec. by apply Hrange.
Qed.

Lemma deleteExpiredOnce_drops_stale_indexes_witness :
  ∃ st',
    deleteExpiredOnce (λ _, 13) stale_index_state = Done st' ∧
    pool_valid st' ∧
    visitorRecords (vc st') = visitorRecords (vc stale_index_state) ∧
    ∀ k index, (k, index) ∈ indexes (vc st') →
               (k, index) ∈ indexes (vc stale_index_state) ∧
               0 ≤ index < len (visitorRecords (vc st')).
Proof.
  apply (deleteExpiredOnce_drops_stale_indexes (λ _, 13) stale_index_state).
  apply (bool_decide_unpack _). vm_compute. exact I.
Defined.

(** ** Construction, the ticks and the visits by address *)


(** X18: the loop of [deleteExpired] sweeps at every tick.  The test of
    [finished] never skips a tick: for the ticks received so far the loop
    has made exactly the calls [deleteExpiredOnce] and then [gc], once
    for each tick and in their order, and [finished] is true again; it
    panics exactly when one of these calls does. *)
Theorem deleteExpired_runs_every_tick (ticks : list (Z → Z)) (st : state) :
  deleteExpired ticks st = (st' ← run (tick_ops ticks) st; Done (true, st')).
Proof.
  unfold deleteExpired, run. revert st.
  induction ticks as [|now ticks IH]; intros st; [done|].
  cbn [for_each deleteExpired_body tick_ops mbind list_bind app run_op].
  destruct (deleteExpiredOnce now st) as [st1|]; cbn [mbind outcome_bind];
    [|done].
  destruct (gc st1) as [st2|]; cbn [mbind outcome_bind]; [|done].
  apply IH.
Qed.



(** ** After a rebuild; the order of iteration *)

Lemma entries_fresh_queue (n : Z) : 0 ≤ n → entries (fresh_queue n) = [].
Proof.
  intros Hn. destruct (newCircleQueueInt64_wf n Hn) as (q & _ & Hwf & Hst & ->).
  by apply (entries_empty n).
Qed.

(** X20: what a key finds after a rebuild.  [gc] moves the buffers and
    leaves [indexes] as it was, so after a rebuild, in a state that was
    consistent, a key with the old index [i] finds the events of the key
    that [Range] visited at position [i]; when fewer keys than [i + 1]
    are known, it finds a new, empty buffer if [i] is a slot of the new
    pool, and otherwise no buffer at all, and its next visit panics with
    an index out of range. *)
Theorem gc_rebuild_confuses_keys (st : state) (k i : Z) :
  consistent st → needGc (vc st) = true →
  Load (indexes (vc st)) k = Some i →
  ∃ st',
    gc st = Done st' ∧
    visitor_of k st'
    = match indexes (vc st) !! Z.to_nat i with
      | Some (k', _) => visitor_of k' st
      | None =>
          if decide (i < len (visitorRecords (vc st'))) then Known []
          else Dangling
      end ∧
    (visitor_of k st' = Dangling →
     ∀ now, AllowVisit k now st' = Panics index_out_of_range).
Proof.
  intros Hc Hneed HLoad. pose proof (limit_nonneg st Hc) as Hl.
  pose proof (consistent_newLen st Hc) as Hlen.
  destruct (consistent_key_buffer k i st Hc HLoad) as (_ & _ & Hrange & _).
  exists (gc_state st). split; [by rewrite gc_consistent_Done, Hneed|].
  assert (Hrecords : len (visitorRecords (vc (gc_state st)))
                     = gc_newLen (vc st)).
  { unfold gc_state. simpl_state. unfold len, moved_pointers in *.
    rewrite length_app, !length_fmap, length_seq. lia. }
  rewrite Hrecords.
  destruct (indexes (vc st) !! Z.to_nat i) as [[k' i']|] eqn:Hi.
  - pose proof (list_elem_of_lookup_2 _ _ _ Hi) as Hin.
    pose proof (elem_Load _ _ _ (keys_NoDup st Hc) Hin) as HLoad'.
    destruct (consistent_key_buffer k' i' st Hc HLoad')
      as (p & q & _ & _ & Hp & Hq & _ & Hvis).
    assert (visitor_of k (gc_state st) = Known (entries q)) as Hk.
    { apply (visitor_of_Known k i _ p q); unfold gc_state; simpl_state.
      - done.
      - apply go_index_Done. split; [lia|]. apply lookup_app_l_Some.
        unfold moved_pointers. rewrite list_lookup_fmap, Hi.
        cbn [fmap option_fmap option_map snd].
        apply go_index_Done in Hp as [_ ->]. done.
      - by apply deref_app. }
    rewrite Hk, Hvis. split; [done|]. done.
  - apply lookup_ge_None in Hi. case_decide as Hnew.
    + assert (visitor_of k (gc_state st)
              = Known (entries (fresh_queue (maxVisitsNum (vc st))))) as Hk.
      { apply (visitor_of_Known k i _
                 (addr (length (store st) + Z.to_nat i)));
          unfold gc_state; simpl_state.
        - done.
        - apply go_index_Done. split; [lia|]. unfold moved_pointers.
          rewrite lookup_app_r by (rewrite length_fmap; lia).
          rewrite length_fmap, list_lookup_fmap.
          rewrite lookup_seq_lt by (unfold len in *; lia).
          cbn [fmap option_fmap option_map]. do 2 f_equal. lia.
        - cbn [deref]. rewrite lookup_app_r by lia.
          by rewrite lookup_replicate_2 by lia. }
      rewrite Hk, entries_fresh_queue by done. split; [done|]. done.
    + assert (Hout : go_index (visitorRecords (vc (gc_state st))) i
                     = Panics index_out_of_range).
      { unfold go_index. rewrite decide_True by lia.
        rewrite (proj2 (lookup_ge_None _ _)); [done|].
        unfold len in Hrecords. lia. }
      split.
      * unfold visitor_of. change (indexes (vc (gc_state st)))
          with (indexes (vc st)). by rewrite HLoad, Hout.
      * intros _ now. unfold AllowVisit, add.
        change (indexes (vc (gc_state st))) with (indexes (vc st)).
        by rewrite HLoad, Hout.
Qed.

Lemma gc_rebuild_confuses_keys_witness :
  ∃ st',
    gc two_survivors_state = Done st' ∧
    visitor_of 2 st'
    = match indexes (vc two_survivors_state) !! Z.to_nat 1 with
      | Some (k', _) => visitor_of k' two_survivors_state
      | None =>
          if decide (1 < len (visitorRecords (vc st'))) then Known []
          else Dangling
      end ∧
    (visitor_of 2 st' = Dangling →
     ∀ now, AllowVisit 2 now st' = Panics index_out_of_range).
Proof.
  apply (gc_rebuild_confuses_keys two_survivors_state 2 1);
    [|reflexivity|reflexivity].
  apply (run_new_state_consistent 10 1 2 3 two_survivors); [lia | lia | | done].
  by repeat constructor.
Defined.




(** ** Slots come back; the ticks, semantically *)

(** X22: the sweep gives the slots back.  In a consistent state, the
    slot of every key that the sweep forgets is in the free set
    afterwards, so that, the pool being unchanged, the next unknown key
    takes a slot of the pool instead of making it grow. *)
Theorem deleteExpiredOnce_frees_slots (now : Z → Z) (st : state) :
  consistent st →
  ∃ st',
    deleteExpiredOnce now st = Done st' ∧
    visitorRecords (vc st') = visitorRecords (vc st) ∧
    (∀ k i, Load (indexes (vc st)) k = Some i →
            visitor_of k st' = Unknown →
            i ∈ notUsedVisitorRecordsIndex (vc st')) ∧
    (∀ key t, visitor_of key st' = Unknown →
              notUsedVisitorRecordsIndex (vc st') ≠ [] →
              ∃ st'', AllowVisit key t st' = Done (st'', true) ∧
                      visitorRecords (vc st'') = visitorRecords (vc st)).
Proof.
  intros Hc.
  destruct (deleteExpiredOnce_spec now st Hc)
    as (st' & Hrun & Hc' & _ & Hrec & _).
  destruct (deleteExpiredOnce_loop_valid now (indexes (vc st)) st
              (consistent_pool_valid st Hc))
    as (st0 & Hrun0 & _ & _ & Hsub).
  assert (st0 = st') as -> by (unfold deleteExpiredOnce in Hrun; congruence).
  exists st'. split; [done|]. split; [done|]. split.
  - intros k i HLoad Hgone. apply visitor_of_Unknown in Hgone.
    destruct (consistent_key_buffer k i st Hc HLoad) as (_ & _ & Hrange & _).
    destruct (slots_partition st' Hc') as (_ & _ & Hp3).
    destruct (Hp3 i) as [Hfree | [k' Hk']]; [by rewrite Hrec | done |].
    destruct (Hsub _ Hk') as [Hin _].
    assert (k' = k) as ->.
    { apply (same_index_same_key (indexes (vc st)) k' k i);
        [apply Hc | done | by apply Load_Some_elem]. }
    rewrite (elem_Load _ _ _ (keys_NoDup st' Hc') Hk') in Hgone. done.
  - intros key t Hnew Hfree.
    destruct (AllowVisit_spec key t st' Hc') as (st'' & _ & _ & _ & Hkey).
    rewrite Hnew in Hkey. destruct Hkey as (Hrun' & _ & Hslot).
    exists st''. split; [done|].
    destruct (notUsedVisitorRecordsIndex (vc st')) as [|index free]; [done|].
    destruct Hslot as (_ & _ & ->). done.
Qed.

Lemma deleteExpiredOnce_frees_slots_witness :
  ∃ st',
    deleteExpiredOnce (λ _, 12) two_visitors_state = Done st' ∧
    visitorRecords (vc st') = visitorRecords (vc two_visitors_state) ∧
    (∀ k i, Load (indexes (vc two_visitors_state)) k = Some i →
            visitor_of k st' = Unknown →
            i ∈ notUsedVisitorRecordsIndex (vc st')) ∧
    (∀ key t, visitor_of key st' = Unknown →
              notUsedVisitorRecordsIndex (vc st') ≠ [] →
              ∃ st'', AllowVisit key t st' = Done (st'', true) ∧
                      visitorRecords (vc st'')
                      = visitorRecords (vc two_visitors_state)).
Proof.
  apply (deleteExpiredOnce_frees_slots (λ _, 12) two_visitors_state).
  apply two_visitors_state_consistent.
Defined.

(** X23: the ticks, in a consistent state.  As long as no [gc] rebuilds
    the pool, [deleteExpired] returns from every tick without panic,
    with [finished] true and the state consistent, and every key is left
    with what the sweeps of the ticks, one after the other, leave of its
    events. *)
Theorem deleteExpired_sweeps_at_every_tick (ticks : list (Z → Z))
    (st : state) :
  consistent st → quiet (tick_ops ticks) st →
  ∃ st',
    deleteExpired ticks st = Done (true, st') ∧
    consistent st' ∧
    ∀ k, visitor_of k st'
         = foldl (λ v now, swept (now k) v) (visitor_of k st) ticks.
Proof.
  unfold deleteExpired. revert st.
  induction ticks as [|now ticks IH]; intros st Hc Hquiet.
  - by exists st.
  - cbn [tick_ops mbind list_bind app quiet] in Hquiet.
    destruct Hquiet as (_ & Hquiet).
    destruct (deleteExpiredOnce_spec now st Hc)
      as (st1 & Hrun1 & Hc1 & _ & _ & Hvis1).
    destruct (Hquiet st1 Hrun1) as (Hgc & Hrest).
    assert (Hneed : needGc (vc st1) = false).
    { destruct (needGc (vc st1)) eqn:Hneed; [|done]. by destruct Hgc. }
    assert (Hrun2 : gc st1 = Done st1) by (unfold gc; by rewrite Hneed).
    destruct (IH st1 Hc1 (Hrest st1 Hrun2)) as (st' & Hrun & Hc' & Hvis).
    exists st'. cbn [for_each deleteExpired_body]. rewrite Hrun1.
    cbn [mbind outcome_bind]. rewrite Hrun2. cbn [mbind outcome_bind].
    split; [done|]. split; [done|]. intros k. cbn [foldl].
    by rewrite Hvis, Hvis1.
Qed.

Lemma deleteExpired_sweeps_at_every_tick_witness :
  ∃ st',
    deleteExpired [(λ _, 11); (λ _, 12)] two_visitors_state = Done (true, st') ∧
    consistent st' ∧
    ∀ k, visitor_of k st'
         = foldl (λ v now, swept (now k) v) (visitor_of k two_visitors_state)
             [(λ _, 11); (λ _, 12)].
Proof.
  apply (deleteExpired_sweeps_at_every_tick [(λ _, 11); (λ _, 12)]
           two_visitors_state);
    [apply two_visitors_state_consistent|].
  apply quiet_check_quiet. reflexivity.
Defined.
